(** * Best-subset regression search (boston2.go)

    A shallow embedding of [generateCombinations], [fitModel], the per-size
    worker closure of [main] and the goroutine/channel protocol of [main],
    followed by the properties of the design document checked against them.

    Go's [int] is modelled as [Z] (64-bit, wrap-around written out where an
    operation can overflow), [float64] as Rocq's primitive binary64 floats,
    a panic (index out of range) as [None]. *)

From Stdlib Require Import String DecimalString.
From Stdlib Require Import ZArith List Lia Bool Sorted Permutation.
From Stdlib Require Import Floats Uint63.
Import ListNotations.
Local Open Scope Z_scope.

(** ** Go's [int] *)

Module GoInt.

Definition min_int : Z := - 2 ^ 63.
Definition max_int : Z := 2 ^ 63 - 1.

(** An [int] value, as opposed to an arbitrary integer. *)
Definition is_int (z : Z) : Prop := min_int <= z <= max_int.

(** Two's complement wrap-around of an arithmetic result. *)
Definition wrap (z : Z) : Z := (z + 2 ^ 63) mod 2 ^ 64 - 2 ^ 63.

End GoInt.

(** ** Slices and panics *)

(** [s[i]]: panics unless [0 <= i < len(s)]. *)
Definition at_index {A : Type} (s : list A) (i : Z) : option A :=
  if i <? 0 then None else nth_error s (Z.to_nat i).

Definition len {A : Type} (s : list A) : Z := Z.of_nat (length s).

Definition bind {A B : Type} (m : option A) (f : A -> option B) : option B :=
  match m with
  | Some a => f a
  | None => None
  end.

Notation "x <- m ;; k" := (bind m (fun x => k))
  (at level 61, m at next level, right associativity).
Notation "' p <- m ;; k" := (bind m (fun x => let p := x in k))
  (at level 61, p pattern, m at next level, right associativity).

(** [for _, a := range l { st = body(st, a) }] where the body may panic. *)
Fixpoint foldM {A S : Type} (body : S -> A -> option S) (l : list A) (st : S)
  : option S :=
  match l with
  | [] => Some st
  | a :: l' => st' <- body st a ;; foldM body l' st'
  end.

(** [for i, a := range l { ... }], with [i] starting at [i0]. *)
Fixpoint foldMi {A S : Type} (body : S -> Z -> A -> option S) (i0 : Z)
    (l : list A) (st : S) : option S :=
  match l with
  | [] => Some st
  | a :: l' => st' <- body st i0 a ;; foldMi body (i0 + 1) l' st'
  end.

(** ** [float64] and package [math] *)

Abbreviation float64 := PrimFloat.float.

(** [float64(len(s))]: a slice length is a non-negative [int]. *)
Definition float_of_len {A : Type} (s : list A) : float64 :=
  PrimFloat.of_uint63 (Uint63.of_Z (len s)).

(** The two functions of package [math] that [fitModel] calls.  They are
    not part of the repository and stay abstract. *)
Class GoMath := {
  Log : float64 -> float64;
  Pow : float64 -> float64 -> float64
}.

(** The special cases and the range of [math.Log] on binary64:
    [Log(0) = -Inf] for both zeros; otherwise the result is NaN ([x < 0] or NaN), [+Inf]
    ([x = +Inf]), or the logarithm of a positive finite binary64 number,
    whose magnitude is below 745. *)
Record LogSpec (M : GoMath) : Prop := {
  Log_zero : forall x, PrimFloat.eqb x 0 = true -> Log x = neg_infinity;
  Log_nonzero : forall x, PrimFloat.eqb x 0 = false ->
    Log x = nan \/ Log x = infinity
    \/ PrimFloat.leb (PrimFloat.abs (Log x)) 745 = true
}.

(** ** The regression library (github.com/sajari/regression)

    The library is an external dependency.  Its interface, as far as
    [fitModel] uses it, is a class; every method takes and returns the
    receiver, since all of them have pointer receivers. *)

Definition error := option string.

Record dataPoint := DataPoint { Observed : float64; Variables : list float64 }.

Class Regression := {
  regression : Type;
  (** [var r regression.Regression] *)
  zero_regression : regression;
  SetObserved : string -> regression -> regression;
  SetVar : Z -> string -> regression -> regression;
  Train : list dataPoint -> regression -> regression;
  Run : regression -> error * regression;
  Predict : list float64 -> regression -> (float64 * error) * regression
}.

(** [strconv.Itoa] *)
Definition Itoa (z : Z) : string := NilZero.string_of_int (Z.to_int z).

(** ** [generateCombinations]

    [for i := index; i < n; i++] visits [index, index+1, ..., n-1]; the
    increment cannot overflow because [i < n]. *)

Definition loop_range (index n : Z) : list Z :=
  map (fun j => index + Z.of_nat j) (seq 0 (Z.to_nat (n - index))).

(** The helper appends to [*combinations]; the accumulator is threaded.
    Every recursive call has a strictly larger [index], so [n - index]
    bounds the depth of the recursion: [fuel] is that bound.  The slice
    [combination] is copied when it is recorded, so the shared backing
    array is not observable and a list stands for it. *)
Fixpoint generateCombinationsHelper (fuel : nat) (n k index : Z)
    (combination : list Z) (combinations : list (list Z)) : list (list Z) :=
  if k =? 0 then combinations ++ [combination]
  else
    match fuel with
    | O => combinations
    | S fuel' =>
        fold_left
          (fun acc i =>
             generateCombinationsHelper fuel' n (GoInt.wrap (k - 1)) (i + 1)
               (combination ++ [i]) acc)
          (loop_range index n) combinations
    end.

Definition generateCombinations (n k : Z) : list (list Z) :=
  generateCombinationsHelper (Z.to_nat n) n k 0 [] [].

(** The subsets produced below one call, without prefix and accumulator. *)
Definition enum (n : Z) (fuel : nat) (k index : Z) : list (list Z) :=
  generateCombinationsHelper fuel n k index [] [].

(** *** Vocabulary for the properties of the enumeration *)

Fixpoint binomial (n k : nat) : nat :=
  match n, k with
  | _, O => 1
  | O, S _ => 0
  | S n', S k' => binomial n' k' + binomial n' k
  end.

(** Lexicographic order on index sequences. *)
Inductive lex_lt : list Z -> list Z -> Prop :=
| lex_lt_nil : forall b bs, lex_lt [] (b :: bs)
| lex_lt_head : forall a b xs ys, a < b -> lex_lt (a :: xs) (b :: ys)
| lex_lt_tail : forall a xs ys, lex_lt xs ys -> lex_lt (a :: xs) (a :: ys).

(** Strictly increasing sequence with all elements in [lo, hi). *)
Fixpoint increasing_in (lo hi : Z) (c : list Z) : Prop :=
  match c with
  | [] => True
  | x :: c' => lo <= x < hi /\ increasing_in (x + 1) hi c'
  end.

(** ** [fitModel] *)

Section FitModel.

Context {R : Regression} {M : GoMath}.

(** The inner loop [for _, row := range data { x = append(x, row[idx]) }]. *)
Definition feature_column (data : list (list float64)) (idx : Z)
  : option (list float64) :=
  foldM (fun x row => v <- at_index row idx ;; Some (x ++ [v])) data [].

(** First loop: one entry of [xs] per element of [features]. *)
Definition collect_features (features : list Z) (data : list (list float64))
    (r : regression) : option (list (list float64) * regression) :=
  foldM (fun '(xs, r) idx =>
           let varName := Itoa idx in
           let r := SetVar idx varName r in
           x <- feature_column data idx ;;
           Some (xs ++ [x], r))
        features ([], r).

(** Second loop: [for i, row := range xs { r.Train(DataPoint(y[i], row)) }]. *)
Definition train_all (y : list float64) (xs : list (list float64))
    (r : regression) : option regression :=
  foldMi (fun r i row => yi <- at_index y i ;; Some (Train [DataPoint yi row] r))
         0 xs r.

(** Third loop: the sum of squared residuals [f]; the error of [Predict]
    is discarded. *)
Definition sum_squares (y : list float64) (xs : list (list float64))
    (r : regression) : option (float64 * regression) :=
  foldMi (fun '(f, r) i row =>
            let '((yPred, _), r) := Predict row r in
            yi <- at_index y i ;;
            Some ((f + Pow (yi - yPred) 2)%float, r))
         0 xs (0%float, r).

(** [fitModel] up to the call of [r.Run()]: the rows handed to the
    library and the trained regression. *)
Definition trained_regression (y : list float64) (features : list Z)
    (data : list (list float64)) : option (list (list float64) * regression) :=
  let r := zero_regression in
  let r := SetObserved "mv" r in
  '(xs, r) <- collect_features features data r ;;
  r <- train_all y xs r ;;
  Some (xs, r).

Definition fitModel (y : list float64) (features : list Z)
    (data : list (list float64)) : option (float64 * float64) :=
  '(xs, r) <- trained_regression y features data ;;
  (* r.Run(): the returned error is discarded *)
  let '(_, r) := Run r in
  '(f, _) <- sum_squares y xs r ;;
  let mse := (f / float_of_len xs)%float in
  let aic := (float_of_len xs * Log mse + 2 * float_of_len features)%float in
  Some (mse, aic).

End FitModel.

(** ** The worker closure of [main] *)

Record result := mkResult { Features : list Z; AIC : float64; MSE : float64 }.

Section Worker.

Context {R : Regression} {M : GoMath}.

(** The body of [for _, features := range combinations]. *)
Definition consider (y : list float64) (data : list (list float64))
    (best : result) (features : list Z) : option result :=
  '(mse, aic) <- fitModel y features data ;;
  Some (if PrimFloat.ltb aic (AIC best) then mkResult features aic mse else best).

(** The value the goroutine started for [size] sends on [results]:
    [localBestAIC := math.Inf(1)], nil features, zero MSE, then the loop. *)
Definition worker (y : list float64) (data : list (list float64))
    (numExplanatory size : Z) : option result :=
  foldM (consider y data) (generateCombinations numExplanatory size)
        (mkResult [] infinity 0).

End Worker.

(** The part of [main] between the parsed table and the goroutines:
    the response column [y] and [numExplanatory].  [main] stops earlier
    when there are no records, so [data[0]] exists. *)
Definition prepare (data : list (list float64)) : option (list float64 * Z) :=
  row0 <- at_index data 0 ;;
  let responseIndex := len row0 - 1 in
  y <- foldM (fun y row => v <- at_index row responseIndex ;; Some (y ++ [v])) data [] ;;
  let numExplanatory := len row0 - 1 in
  Some (y, numExplanatory).

(** ** The goroutines of [main]

    [main] starts one goroutine per size, then a goroutine that receives
    [done] once per size and closes [results], and then ranges over
    [results].  Both channels are unbuffered: a send and a receive complete
    together.  What a worker computes before it sends touches no shared
    mutable state, so it is one step.  The loop variables [size] and [i]
    stay at most [numExplanatory + 1 = len(data[0])], so their increments
    do not overflow. *)

Inductive worker_pc :=
| WRunning                 (* before [results <- ...] is reached *)
| WSending (r : result)    (* blocked in [results <- result{...}] *)
| WDeferred                (* result delivered; in the deferred [done <- struct{}{}] *)
| WPanicking               (* [fitModel] panicked; in the deferred [done <- struct{}{}] *)
| WCrashing                (* the deferred call has returned; the panic ends the process *)
| WExited.

Inductive closer_pc :=
| CNotStarted
| CWaiting (i : Z)         (* loop variable of [for i := 4; i <= numExplanatory; i++] *)
| CClosed.                 (* after [close(results)] *)

Inductive main_pc :=
| MSpawning (size : Z)     (* loop variable of [for size := 4; ...] *)
| MReceiving               (* in [for res := range results] *)
| MFinished.               (* the range loop has ended *)

Record system := mkSystem {
  workers : list (Z * worker_pc);
  closer : closer_pc;
  coordinator : main_pc;
  results_closed : bool;
  (** the results printed so far, one entry per iteration of the range loop *)
  printed : list result;
  (** an unrecovered panic has ended the process *)
  crashed : bool
}.

Definition init : system := mkSystem [] CNotStarted (MSpawning 4) false [] false.

Section Goroutines.

Variable numExplanatory : Z.
(** What the worker for a size computes ([None]: it panics). *)
Variable search : Z -> option result.

Inductive step : system -> system -> Prop :=
| step_spawn_worker : forall ws size out,
    size <= numExplanatory ->
    step (mkSystem ws CNotStarted (MSpawning size) false out false)
         (mkSystem (ws ++ [(size, WRunning)]) CNotStarted (MSpawning (size + 1))
                   false out false)
| step_spawn_closer : forall ws size out,
    numExplanatory < size ->
    step (mkSystem ws CNotStarted (MSpawning size) false out false)
         (mkSystem ws (CWaiting 4) MReceiving false out false)
| step_compute : forall l1 l2 size r c m cl out,
    search size = Some r -> m <> MFinished ->
    step (mkSystem (l1 ++ (size, WRunning) :: l2) c m cl out false)
         (mkSystem (l1 ++ (size, WSending r) :: l2) c m cl out false)
| step_panic : forall l1 l2 size c m cl out,
    search size = None -> m <> MFinished ->
    step (mkSystem (l1 ++ (size, WRunning) :: l2) c m cl out false)
         (mkSystem (l1 ++ (size, WPanicking) :: l2) c m cl out false)
| step_deliver : forall l1 l2 size r c out,
    step (mkSystem (l1 ++ (size, WSending r) :: l2) c MReceiving false out false)
         (mkSystem (l1 ++ (size, WDeferred) :: l2) c MReceiving false
                   (out ++ [r]) false)
| step_send_on_closed : forall l1 l2 size r c m out,
    m <> MFinished ->
    step (mkSystem (l1 ++ (size, WSending r) :: l2) c m true out false)
         (mkSystem (l1 ++ (size, WSending r) :: l2) c m true out true)
| step_done : forall l1 l2 size i m cl out,
    i <= numExplanatory -> m <> MFinished ->
    step (mkSystem (l1 ++ (size, WDeferred) :: l2) (CWaiting i) m cl out false)
         (mkSystem (l1 ++ (size, WExited) :: l2) (CWaiting (i + 1)) m cl out false)
| step_panic_done : forall l1 l2 size i m cl out,
    i <= numExplanatory -> m <> MFinished ->
    step (mkSystem (l1 ++ (size, WPanicking) :: l2) (CWaiting i) m cl out false)
         (mkSystem (l1 ++ (size, WCrashing) :: l2) (CWaiting (i + 1)) m cl out false)
| step_crash : forall l1 l2 size c m cl out,
    m <> MFinished ->
    step (mkSystem (l1 ++ (size, WCrashing) :: l2) c m cl out false)
         (mkSystem (l1 ++ (size, WCrashing) :: l2) c m cl out true)
| step_close : forall ws i m out,
    numExplanatory < i -> m <> MFinished ->
    step (mkSystem ws (CWaiting i) m false out false)
         (mkSystem ws CClosed m true out false)
| step_finish : forall ws c out,
    step (mkSystem ws c MReceiving true out false)
         (mkSystem ws c MFinished true out false).

Inductive reachable : system -> Prop :=
| reachable_init : reachable init
| reachable_step : forall s s', reachable s -> step s s' -> reachable s'.

(** The sizes [main] starts a worker for. *)
Definition sizes : list Z := loop_range 4 (numExplanatory + 1).

(** The results of the workers that do not panic, by ascending size. *)
Definition per_size_results : list result :=
  flat_map (fun size => match search size with Some r => [r] | None => [] end)
           sizes.

(** A worker has handed its result to the range loop. *)
Definition has_delivered (pc : worker_pc) : bool :=
  match pc with
  | WDeferred | WExited => true
  | _ => false
  end.


(** A worker's send on [done] has completed. *)
Definition has_signalled (pc : worker_pc) : bool :=
  match pc with
  | WExited | WCrashing => true
  | _ => false
  end.


(** *** Invariant of the protocol *)

Definition pc_ok (w : Z * worker_pc) : Prop :=
  match snd w with
  | WRunning => True
  | WSending r => search (fst w) = Some r
  | WDeferred | WExited => search (fst w) <> None
  | WPanicking | WCrashing => search (fst w) = None
  end.

Definition report_of (w : Z * worker_pc) : list result :=
  if has_delivered (snd w)
  then match search (fst w) with Some r => [r] | None => [] end
  else [].

(** The results of the workers that have delivered, by size. *)
Definition delivered (ws : list (Z * worker_pc)) : list result :=
  flat_map report_of ws.

Definition count_signalled (ws : list (Z * worker_pc)) : nat :=
  length (filter (fun w => has_signalled (snd w)) ws).

Record Inv (s : system) : Prop := {
  inv_sizes :
    match coordinator s with
    | MSpawning z =>
        4 <= z /\ (z = 4 \/ z <= numExplanatory + 1)
        /\ map fst (workers s) = loop_range 4 z
    | _ => map fst (workers s) = sizes
    end;
  inv_pcs : Forall pc_ok (workers s);
  inv_printed : Permutation (printed s) (delivered (workers s));
  inv_closer :
    match closer s with
    | CNotStarted =>
        (exists z, coordinator s = MSpawning z)
        /\ results_closed s = false
        /\ count_signalled (workers s) = 0%nat
    | CWaiting i =>
        (forall z, coordinator s <> MSpawning z)
        /\ results_closed s = false
        /\ i = 4 + Z.of_nat (count_signalled (workers s))
    | CClosed =>
        (forall z, coordinator s <> MSpawning z)
        /\ results_closed s = true
        /\ count_signalled (workers s) = length (workers s)
    end;
  inv_finished : coordinator s = MFinished -> results_closed s = true
}.

(** The workers for [finished] have exited, those for [waiting] have not
    started to compute. *)
Definition between (finished waiting : list Z) : system :=
  mkSystem (map (fun size => (size, WExited)) finished
            ++ map (fun size => (size, WRunning)) waiting)
           (CWaiting (4 + len finished)) MReceiving false
           (flat_map (fun size => match search size with Some r => [r] | None => [] end)
                     finished)
           false.

End Goroutines.

(** The program: the goroutines run the worker closure on the prepared
    table.  [None] when [main] panics before it starts them. *)
Definition program_reachable {R : Regression} {M : GoMath}
    (data : list (list float64)) (s : system) : Prop :=
  match prepare data with
  | Some (y, numExplanatory) =>
      reachable numExplanatory (worker y data numExplanatory) s
  | None => False
  end.

(** *** The coordinator of the design document, for comparison *)

(** Minimum by AIC, the earlier entry winning ties. *)
Definition global_best (perSize : list result) : option result :=
  match perSize with
  | [] => None
  | r :: rest =>
      Some (fold_left (fun b c => if PrimFloat.ltb (AIC c) (AIC b) then c else b)
                      rest r)
  end.

(** A report in which the per-size results are followed by the overall
    best one. *)
Definition reports_best (report perSize : list result) : Prop :=
  exists front best,
    report = front ++ [best]
    /\ Permutation front perSize
    /\ global_best perSize = Some best.

(** ** Vocabulary for the magnitude of binary64 values *)

(** A zero, or a finite number of magnitude below [2^B]. *)
Definition bounded_by (B : Z) (f : spec_float) : Prop :=
  match f with
  | S754_zero _ => True
  | S754_finite _ m e => Z.pos (digits2_pos m) + e <= B
  | _ => False
  end.

(** The sign of a value that has one. *)
Definition sign_of (f : spec_float) : option bool :=
  match f with
  | S754_zero s | S754_infinity s | S754_finite s _ _ => Some s
  | S754_nan => None
  end.

(** Finite and not a zero. *)
Definition finite_nonzero (f : spec_float) : Prop :=
  match f with
  | S754_finite _ _ _ => True
  | _ => False
  end.

(** ** Sample instances and inputs

    Stand-ins for the two external packages and a small table, used to run
    the model on concrete inputs.  No general statement depends on them. *)

Module Sample.

Local Open Scope float_scope.

Definition ln2 : float64 := 0x1.62e42fefa39efp-1.

Definition float_of_exponent (e : Z) : float64 :=
  if (e <? 0)%Z then - PrimFloat.of_uint63 (Uint63.of_Z (- e))
  else PrimFloat.of_uint63 (Uint63.of_Z e).

(** [p/d + p*s2/(d+2) + ...], [t] terms. *)
Fixpoint atanh_terms (t : nat) (d p s2 : float64) : float64 :=
  match t with
  | O => 0
  | S t' => p / d + atanh_terms t' (d + 2) (p * s2) s2
  end.

(** A natural logarithm on binary64 with the special cases of [math.Log]:
    [x = m * 2^e] with [1/2 <= m < 1] and [ln m = 2 atanh ((m-1)/(m+1))]. *)
Definition log (x : float64) : float64 :=
  if x =? 0 then neg_infinity
  else if x <? 0 then nan
  else if x =? infinity then infinity
  else if negb (x =? x) then nan
  else
    let '(m, e) := Z.frexp x in
    let s := (m - 1) / (m + 1) in
    let v := float_of_exponent e * ln2 + 2 * atanh_terms 20 1 s (s * s) in
    if abs v <=? 745 then v else nan.

(** [math.Pow] for the exponents 0, 1 and 2; the program only squares. *)
Definition pow (x y : float64) : float64 :=
  if y =? 0 then 1
  else if y =? 1 then x
  else if y =? 2 then x * x
  else nan.

#[export] Instance math : GoMath := {| Log := log; Pow := pow |}.

Record fit := mkFit { points : list dataPoint; fitted : bool }.

Definition observations (r : fit) : Z := len (points r).

Definition variables (r : fit) : Z :=
  match points r with
  | [] => 0%Z
  | p :: _ => len (Variables p)
  end.

Definition mean_observed (r : fit) : float64 :=
  fold_left (fun a p => a + Observed p) (points r) 0 / float_of_len (points r).

(** A regression that refuses to run with fewer observations than
    unknowns (the variables and the intercept), and otherwise fits the
    intercept alone.  Before a successful run it predicts 0 and reports
    an error. *)
#[export] Instance intercept_only : Regression :=
  Build_Regression
    fit
    (mkFit [] false)
    (fun _ r => r)
    (fun _ _ r => r)
    (fun ds r => mkFit (points r ++ ds) (fitted r))
    (fun r =>
       if (observations r <? variables r + 1)%Z
       then (Some "not enough observations"%string, r)
       else (None, mkFit (points r) true))
    (fun _ r =>
       if fitted r then ((mean_observed r, None), r)
       else ((0, Some "regression has not been run"%string), r)).

(** Five rows; five explanatory columns and the response in the last
    one.  Columns 0 and 1 are identical. *)
Definition table : list (list float64) :=
  [ [1; 1; 2; 7; 3; 10];
    [2; 2; 1; 5; 4; 12];
    [3; 3; 4; 6; 1; 9];
    [4; 4; 3; 8; 5; 15];
    [5; 5; 6; 2; 2; 11] ].

Definition y : list float64 := [10; 12; 9; 15; 11].

(** What the worker for a size computes on [table]. *)
Definition search : Z -> option result :=
  @worker intercept_only math y table 5.

(** The same table with an unbounded response: every fit has MSE and
    AIC [+Inf]. *)
Definition unbounded_table : list (list float64) :=
  map (fun row => firstn 5 row ++ [infinity]) table.

Definition unbounded_y : list float64 :=
  [infinity; infinity; infinity; infinity; infinity].

Definition unbounded_search : Z -> option result :=
  @worker intercept_only math unbounded_y unbounded_table 5.

(** The same table with a response that is 0 throughout: every fit is
    exact. *)
Definition flat_table : list (list float64) :=
  map (fun row => firstn 5 row ++ [0]) table.

Definition flat_y : list float64 := [0; 0; 0; 0; 0].

(** Two rows only, same columns. *)
Definition short_table : list (list float64) :=
  [ [1; 1; 2; 7; 3; 10];
    [2; 2; 1; 5; 4; 12] ].

End Sample.

(** ** The start of [main]: from the records to the table

    Opening and reading the file is outside the model.  What [main] does
    with the records that [reader.ReadAll] returned is modelled, with
    [strconv.ParseFloat] abstract.  [log.Fatalf] ends the process with a
    message; it is kept apart from a panic. *)

Inductive startup (A : Type) :=
| Started (a : A)
| Fatal (msg : string)
| Panicked.

Arguments Started {A} a.
Arguments Fatal {A} msg.
Arguments Panicked {A}.

Section Startup.

(** [strconv.ParseFloat(value, 64)] *)
Variable ParseFloat : string -> float64 * error.

(** The inner loop, over [record[1:]]. *)
Fixpoint parse_values (values : list string) (floats : list float64)
  : startup (list float64) :=
  match values with
  | [] => Started floats
  | value :: values' =>
      match ParseFloat value with
      | (val, None) => parse_values values' (floats ++ [val])
      | (_, Some err) => Fatal ("failed to parse float: " ++ err)
      end
  end.

(** One iteration of the outer loop; [record[1:]] panics on an empty
    record. *)
Definition parse_record (record : list string) : startup (list float64) :=
  match record with
  | [] => Panicked
  | _ :: values => parse_values values []
  end.

Fixpoint parse_loop (records : list (list string)) (data : list (list float64))
  : startup (list (list float64)) :=
  match records with
  | [] => Started data
  | record :: records' =>
      match parse_record record with
      | Started floats => parse_loop records' (data ++ [floats])
      | Fatal msg => Fatal msg
      | Panicked => Panicked
      end
  end.

(** A field that [ParseFloat] accepts, and its value. *)
Definition parses (value : string) (v : float64) : Prop :=
  ParseFloat value = (v, None).

(** A record and the row of the table made from it: the first field is
    dropped, the others are parsed in order. *)
Definition row_of (record : list string) (row : list float64) : Prop :=
  exists first values, record = first :: values /\ Forall2 parses values row.

(** A record with a field after the first that [ParseFloat] rejects. *)
Definition has_bad_field (record : list string) : Prop :=
  Exists (fun value => snd (ParseFloat value) <> None) (tl record).

(** From the records (the header already skipped) to [data]. *)
Definition parse_records (records : list (list string))
  : startup (list (list float64)) :=
  if len records =? 0 then Fatal "no data in the CSV file"
  else parse_loop records [].

(** From the records to what the goroutines capture. *)
Definition start_main (records : list (list string))
  : startup (list (list float64) * list float64 * Z) :=
  match parse_records records with
  | Started data =>
      match prepare data with
      | Some (y, numExplanatory) => Started (data, y, numExplanatory)
      | None => Panicked
      end
  | Fatal msg => Fatal msg
  | Panicked => Panicked
  end.

End Startup.

(** ** Vocabulary for runs of the goroutines *)

(** Not negative: NaN, or the sign bit is clear. *)
Definition not_negative (f : spec_float) : Prop := sign_of f <> Some true.

Section Runs.

Variable numExplanatory : Z.
Variable search : Z -> option result.

(** A run of [n] steps. *)
Inductive steps : nat -> system -> system -> Prop :=
| steps_O : forall s, steps O s s
| steps_S : forall n s s' s'',
    step numExplanatory search s s' -> steps n s' s'' -> steps (S n) s s''.

(** An upper bound on the number of steps a state can still take. *)
Definition worker_weight (pc : worker_pc) : nat :=
  match pc with
  | WRunning => 3
  | WSending _ => 2
  | WDeferred => 1
  | WPanicking => 2
  | WCrashing => 1
  | WExited => 0
  end.

Definition main_weight (m : main_pc) : nat :=
  match m with
  | MSpawning size => 5 * Z.to_nat (numExplanatory + 1 - size) + 3
  | MReceiving => 1
  | MFinished => 0
  end.

Definition closer_weight (c : closer_pc) : nat :=
  match c with
  | CNotStarted | CWaiting _ => 1
  | CClosed => 0
  end.

Definition weight (s : system) : nat :=
  list_sum (map (fun w => worker_weight (snd w)) (workers s))
  + main_weight (coordinator s)
  + closer_weight (closer s)
  + (if crashed s then 0 else 1).

(** The workers for the sizes in [finished] have exited, the others have
    not started to compute; the results of [finished] have been printed in
    that order. *)
Definition served (finished : list Z) : system :=
  mkSystem (map (fun size => (size, if existsb (Z.eqb size) finished
                                    then WExited else WRunning))
                (sizes numExplanatory))
           (CWaiting (4 + len finished)) MReceiving false
           (flat_map (fun size => match search size with Some r => [r] | None => [] end)
                     finished)
           false.

End Runs.

(** ** Sample records

    A stand-in for [strconv.ParseFloat] that reads integers, and the
    records that give the sample table. *)

Module SampleStart.

Definition parse_float (value : string) : float64 * error :=
  match NilZero.int_of_string value with
  | Some d => (Sample.float_of_exponent (Z.of_int d), None)
  | None => (0%float, Some "invalid syntax"%string)
  end.

Definition records : list (list string) :=
  [ ["a"; "1"; "1"; "2"; "7"; "3"; "10"];
    ["b"; "2"; "2"; "1"; "5"; "4"; "12"];
    ["c"; "3"; "3"; "4"; "6"; "1"; "9"];
    ["d"; "4"; "4"; "3"; "8"; "5"; "15"];
    ["e"; "5"; "5"; "6"; "2"; "2"; "11"] ]%string.


End SampleStart.

(** * Properties *)

(** ** The enumeration of subsets *)

Lemma wrap_in_range (z : Z) : GoInt.is_int z -> GoInt.wrap z = z.
Proof.
  unfold GoInt.is_int, GoInt.min_int, GoInt.max_int, GoInt.wrap. intros H.
  rewrite Z.mod_small; lia.
Qed.

Section CombinationsProperties.

Variable n : Z.

Lemma fold_left_acc_app {A B : Type} (f : A -> list B) (l : list A)
    (g : list B -> A -> list B) :
  (forall acc a, g acc a = acc ++ f a) ->
  forall acc, fold_left g l acc = acc ++ flat_map f l.
Proof.
  intros Hg. induction l as [|a l IH]; intros acc; simpl.
  - now rewrite app_nil_r.
  - rewrite IH, Hg, app_assoc. reflexivity.
Qed.

Lemma helper_prefix (fuel : nat) :
  forall k index combination combinations,
    generateCombinationsHelper fuel n k index combination combinations
    = combinations ++ map (app combination) (enum n fuel k index).
Proof.
  unfold enum.
  induction fuel as [|fuel IH]; intros k index combination combinations;
    simpl; destruct (k =? 0) eqn:Hk; simpl;
    try (now rewrite ?app_nil_r).
  rewrite (fold_left_acc_app
             (fun i => map (app (combination ++ [i]))
                         (generateCombinationsHelper fuel n (GoInt.wrap (k - 1)) (i + 1) [] []))).
  2:{ intros acc a. apply IH. }
  rewrite (fold_left_acc_app
             (fun i => map (app [i])
                         (generateCombinationsHelper fuel n (GoInt.wrap (k - 1)) (i + 1) [] []))).
  2:{ intros acc a. apply IH. }
  simpl. f_equal.
  induction (loop_range index n) as [|i l IHl]; simpl; [reflexivity|].
  rewrite map_app, IHl. f_equal.
  rewrite !map_map. apply map_ext. intros c.
  now rewrite <- app_assoc.
Qed.

Lemma enum_zero (fuel : nat) (index : Z) : enum n fuel 0 index = [[]].
Proof. destruct fuel; reflexivity. Qed.

Lemma enum_step (fuel : nat) (k index : Z) :
  k <> 0 ->
  enum n (S fuel) k index
  = flat_map (fun i => map (cons i) (enum n fuel (GoInt.wrap (k - 1)) (i + 1)))
      (loop_range index n).
Proof.
  intros Hk. unfold enum at 1. simpl.
  apply Z.eqb_neq in Hk. rewrite Hk.
  rewrite (fold_left_acc_app
             (fun i => map (app [i]) (enum n fuel (GoInt.wrap (k - 1)) (i + 1)))).
  - reflexivity.
  - intros acc a. apply helper_prefix.
Qed.

Lemma loop_range_nil (index : Z) : n <= index -> loop_range index n = [].
Proof.
  intros H. unfold loop_range.
  replace (Z.to_nat (n - index)) with O by lia. reflexivity.
Qed.

Lemma loop_range_cons (index : Z) :
  index < n -> loop_range index n = index :: loop_range (index + 1) n.
Proof.
  intros H. unfold loop_range.
  replace (Z.to_nat (n - index)) with (S (Z.to_nat (n - (index + 1)))) by lia.
  simpl. f_equal; [lia|].
  rewrite <- seq_shift, map_map. apply map_ext. intros j. lia.
Qed.

Lemma loop_range_In (index i : Z) : In i (loop_range index n) <-> index <= i < n.
Proof.
  unfold loop_range. rewrite in_map_iff. split.
  - intros (j & <- & Hj). apply in_seq in Hj. lia.
  - intros H. exists (Z.to_nat (i - index)). split; [lia|].
    apply in_seq. lia.
Qed.


(** With enough fuel the result does not depend on the fuel: the model
    never stops a loop that the program would run. *)
Lemma enum_fuel_irrelevant (f1 : nat) :
  forall f2 k index,
    (Z.to_nat (n - index) <= f1)%nat -> (Z.to_nat (n - index) <= f2)%nat ->
    enum n f1 k index = enum n f2 k index.
Proof.
  induction f1 as [|f1 IH]; intros f2 k index H1 H2.
  - destruct (Z.eq_dec k 0) as [->|Hk]; [now rewrite !enum_zero|].
    destruct f2 as [|f2]; [reflexivity|].
    rewrite enum_step, loop_range_nil by (auto; lia).
    unfold enum. simpl. apply Z.eqb_neq in Hk. now rewrite Hk.
  - destruct (Z.eq_dec k 0) as [->|Hk]; [now rewrite !enum_zero|].
    destruct f2 as [|f2].
    + rewrite enum_step, loop_range_nil by (auto; lia).
      unfold enum. simpl. apply Z.eqb_neq in Hk. now rewrite Hk.
    + rewrite !enum_step by assumption.
      rewrite !flat_map_concat_map. f_equal.
      apply map_ext_in. intros i Hi.
      apply loop_range_In in Hi.
      rewrite (IH f2); [reflexivity | lia | lia].
Qed.

Lemma enum_exhausted (fuel : nat) (k index : Z) :
  k <> 0 -> n <= index -> enum n fuel k index = [].
Proof.
  intros Hk Hn. destruct fuel as [|fuel].
  - unfold enum. simpl. apply Z.eqb_neq in Hk. now rewrite Hk.
  - rewrite enum_step, loop_range_nil by assumption. reflexivity.
Qed.

(** Pascal-style recurrence: the subsets that start with [index], then
    the subsets that start later. *)
Lemma enum_pascal (fuel : nat) (k index : Z) :
  k <> 0 -> index < n -> (Z.to_nat (n - index) <= fuel)%nat ->
  enum n fuel k index
  = map (cons index) (enum n fuel (GoInt.wrap (k - 1)) (index + 1))
    ++ enum n fuel k (index + 1).
Proof.
  intros Hk Hlt Hf.
  destruct fuel as [|fuel]; [lia|].
  rewrite (enum_step fuel k index Hk), loop_range_cons by assumption.
  simpl. f_equal.
  - f_equal. apply enum_fuel_irrelevant; lia.
  - destruct (Z_lt_le_dec (index + 1) n) as [Hlt'|Hge].
    + rewrite (enum_step fuel k (index + 1) Hk). reflexivity.
    + rewrite loop_range_nil, enum_exhausted by assumption. reflexivity.
Qed.

Lemma increasing_in_weaken (lo lo' hi : Z) (c : list Z) :
  lo' <= lo -> increasing_in lo hi c -> increasing_in lo' hi c.
Proof. destruct c; simpl; [tauto|]. intros ? [? ?]. split; [lia|assumption]. Qed.

Lemma wrap_pred (k : Z) : 1 <= k <= GoInt.max_int -> GoInt.wrap (k - 1) = k - 1.
Proof.
  intros H. apply wrap_in_range.
  unfold GoInt.is_int, GoInt.min_int, GoInt.max_int in *. lia.
Qed.

(** Membership: exactly the strictly increasing [k]-sequences over
    [index, n). *)
Lemma enum_In (fuel : nat) (m : nat) :
  forall k index c,
    0 <= k <= GoInt.max_int ->
    Z.to_nat (n - index) = m -> (m <= fuel)%nat ->
    In c (enum n fuel k index)
    <-> Z.of_nat (length c) = k /\ increasing_in index n c.
Proof.
  induction m as [|m IH]; intros k index c Hk Hm Hf.
  - destruct (Z.eq_dec k 0) as [->|Hk0].
    + rewrite enum_zero. simpl. split.
      * intros [<-|[]]. simpl. auto.
      * intros [Hl _]. destruct c; [auto|discriminate].
    + rewrite enum_exhausted by (auto; lia). simpl. split; [tauto|].
      intros [Hl Hinc]. destruct c as [|x c]; simpl in *; lia.
  - destruct (Z.eq_dec k 0) as [->|Hk0].
    + rewrite enum_zero. simpl. split.
      * intros [<-|[]]. simpl. auto.
      * intros [Hl _]. destruct c; [auto|discriminate].
    + rewrite enum_pascal by (auto; lia).
      rewrite wrap_pred by lia.
      rewrite in_app_iff, in_map_iff. split.
      * intros [(c' & <- & Hc')|Hc].
        -- apply (IH (k - 1) (index + 1)) in Hc'; try lia.
           destruct Hc' as [Hl Hinc]. simpl. split; [lia|].
           split; [lia|assumption].
        -- apply (IH k (index + 1)) in Hc; try lia.
           destruct Hc as [Hl Hinc]. split; [assumption|].
           apply (increasing_in_weaken (index + 1)); [lia|assumption].
      * intros [Hl Hinc]. destruct c as [|x c]; [simpl in Hl; lia|].
        simpl in Hl, Hinc. destruct Hinc as [Hx Hinc].
        destruct (Z.eq_dec x index) as [->|Hne].
        -- left. exists c. split; [reflexivity|].
           apply (IH (k - 1) (index + 1)); try lia. split; [lia|assumption].
        -- right. apply (IH k (index + 1)); try lia.
           split; [simpl; lia|]. simpl. split; [lia|assumption].
Qed.

Lemma enum_length (fuel : nat) (m : nat) :
  forall k index,
    0 <= k <= GoInt.max_int ->
    Z.to_nat (n - index) = m -> (m <= fuel)%nat ->
    length (enum n fuel k index) = binomial m (Z.to_nat k).
Proof.
  induction m as [|m IH]; intros k index Hk Hm Hf.
  - destruct (Z.eq_dec k 0) as [->|Hk0]; [now rewrite enum_zero|].
    rewrite enum_exhausted by (auto; lia).
    replace (Z.to_nat k) with (S (Z.to_nat (k - 1))) by lia. reflexivity.
  - destruct (Z.eq_dec k 0) as [->|Hk0]; [now rewrite enum_zero|].
    rewrite enum_pascal by (auto; lia).
    rewrite wrap_pred by lia.
    rewrite length_app, length_map.
    rewrite (IH (k - 1) (index + 1)), (IH k (index + 1)) by lia.
    replace (Z.to_nat k) with (S (Z.to_nat (k - 1))) by lia. reflexivity.
Qed.

Lemma StronglySorted_app {A : Type} (R : A -> A -> Prop) (l1 l2 : list A) :
  StronglySorted R l1 -> StronglySorted R l2 ->
  (forall x y, In x l1 -> In y l2 -> R x y) ->
  StronglySorted R (l1 ++ l2).
Proof.
  induction 1 as [|a l1 Hs IH Ha]; intros H2 Hx; simpl; [assumption|].
  constructor.
  - apply IH; [assumption|]. intros x y Hi. apply Hx. now right.
  - apply Forall_app. split; [assumption|].
    apply Forall_forall. intros y Hy. apply Hx; [now left|assumption].
Qed.

Lemma StronglySorted_map_cons (a : Z) (l : list (list Z)) :
  StronglySorted lex_lt l -> StronglySorted lex_lt (map (cons a) l).
Proof.
  induction 1 as [|c l Hs IH Hc]; simpl; constructor; [assumption|].
  apply Forall_map. revert Hc. apply Forall_impl.
  intros d Hd. now apply lex_lt_tail.
Qed.

Lemma enum_sorted (fuel : nat) (m : nat) :
  forall k index,
    0 <= k <= GoInt.max_int ->
    Z.to_nat (n - index) = m -> (m <= fuel)%nat ->
    StronglySorted lex_lt (enum n fuel k index).
Proof.
  induction m as [|m IH]; intros k index Hk Hm Hf.
  - destruct (Z.eq_dec k 0) as [->|Hk0].
    + rewrite enum_zero. repeat constructor.
    + rewrite enum_exhausted by (auto; lia). constructor.
  - destruct (Z.eq_dec k 0) as [->|Hk0].
    + rewrite enum_zero. repeat constructor.
    + rewrite enum_pascal by (auto; lia).
      rewrite wrap_pred by lia.
      apply StronglySorted_app.
      * apply StronglySorted_map_cons. apply IH; lia.
      * apply IH; lia.
      * intros x y Hx Hy. apply in_map_iff in Hx.
        destruct Hx as (c & <- & _).
        apply (enum_In fuel m k (index + 1)) in Hy; try lia.
        destruct Hy as [Hl Hinc].
        destruct y as [|b y]; [simpl in Hl; lia|].
        simpl in Hinc. apply lex_lt_head. lia.
Qed.

Lemma lex_lt_irrefl (c : list Z) : ~ lex_lt c c.
Proof. induction c as [|a c IH]; intros H; inversion H; subst; [lia|auto]. Qed.

Lemma StronglySorted_NoDup {A : Type} (R : A -> A -> Prop) (l : list A) :
  (forall x, ~ R x x) -> StronglySorted R l -> NoDup l.
Proof.
  intros Hirr. induction 1 as [|a l Hs IH Ha]; constructor; [|assumption].
  intros Hin. rewrite Forall_forall in Ha. exact (Hirr a (Ha a Hin)).
Qed.

Lemma increasing_in_bounds (lo hi : Z) (c : list Z) :
  increasing_in lo hi c -> Forall (fun x => lo <= x < hi) c.
Proof.
  revert lo. induction c as [|x c IH]; intros lo; simpl; [constructor|].
  intros [Hx Hc]. constructor; [assumption|].
  apply IH in Hc. revert Hc. apply Forall_impl. intros; lia.
Qed.

Lemma increasing_in_NoDup (lo hi : Z) (c : list Z) :
  increasing_in lo hi c -> NoDup c.
Proof.
  revert lo. induction c as [|x c IH]; intros lo; simpl; [constructor|].
  intros [Hx Hc]. constructor; [|now apply IH in Hc].
  intros Hin. apply increasing_in_bounds in Hc.
  rewrite Forall_forall in Hc. apply Hc in Hin. lia.
Qed.

End CombinationsProperties.

Lemma increasing_in_iff (lo hi : Z) (c : list Z) :
  increasing_in lo hi c
  <-> StronglySorted Z.lt c /\ Forall (fun x => lo <= x < hi) c.
Proof.
  revert lo. induction c as [|x c IH]; intros lo; simpl.
  - split; [intros _; split; constructor | trivial].
  - rewrite IH. split.
    + intros (Hx & Hs & Hb). split.
      * constructor; [assumption|]. revert Hb. apply Forall_impl. intros; lia.
      * constructor; [assumption|]. revert Hb. apply Forall_impl. intros; lia.
    + intros (Hs & Hb). inversion Hs as [|? ? Hs' Hlt]; subst.
      inversion Hb as [|? ? Hx Hb']; subst.
      repeat split; try assumption; try lia.
      rewrite Forall_forall in *. intros z Hz.
      specialize (Hlt z Hz). specialize (Hb' z Hz). lia.
Qed.

Lemma binomial_gt (n : nat) : forall k, (n < k)%nat -> binomial n k = 0%nat.
Proof.
  induction n as [|n IH]; intros [|k] H; simpl; try lia.
  rewrite !IH by lia. reflexivity.
Qed.

Lemma binomial_diag (n : nat) : binomial n n = 1%nat.
Proof.
  induction n as [|n IH]; simpl; [reflexivity|].
  rewrite IH, binomial_gt by lia. reflexivity.
Qed.

(** [binomial] is the binomial coefficient: C(m+k, k) * m! * k! = (m+k)!. *)
Lemma binomial_fact (m : nat) :
  forall k, (binomial (m + k) k * (fact m * fact k) = fact (m + k))%nat.
Proof.
  induction m as [|m IHm]; intros k.
  - simpl. rewrite binomial_diag. lia.
  - induction k as [|k IHk].
    + rewrite Nat.add_0_r. simpl binomial.
      destruct m; simpl; lia.
    + replace (S m + S k)%nat with (S (S m + k)) by lia.
      change (binomial (S (S m + k)) (S k))
        with (binomial (S m + k) k + binomial (S m + k) (S k))%nat.
      specialize (IHm (S k)).
      replace (m + S k)%nat with (S m + k)%nat in IHm by lia.
      change (fact (S (S m + k))) with (S (S m + k) * fact (S m + k))%nat.
      change (fact (S m)) with (S m * fact m)%nat in *.
      change (fact (S k)) with (S k * fact k)%nat in *.
      nia.
Qed.

(** C4: for [n >= 1] and [1 <= k <= n], [generateCombinations n k] has
    C(n,k) elements; each one has length [k], elements in [0, n), is
    strictly increasing and so free of duplicates; no subset occurs twice;
    the sequence is in lexicographic order; and every strictly increasing
    [k]-sequence over [0, n) occurs. *)
Theorem generateCombinations_enumerates (n k : Z) :
  1 <= n -> 1 <= k <= n -> GoInt.is_int n ->
  let cs := generateCombinations n k in
  length cs = binomial (Z.to_nat n) (Z.to_nat k)
  /\ Forall (fun c => len c = k
                      /\ Forall (fun x => 0 <= x < n) c
                      /\ StronglySorted Z.lt c
                      /\ NoDup c) cs
  /\ NoDup cs
  /\ StronglySorted lex_lt cs
  /\ (forall c, len c = k -> StronglySorted Z.lt c ->
                Forall (fun x => 0 <= x < n) c -> In c cs).
Proof.
  intros Hn Hk Hint cs.
  assert (Hk' : 0 <= k <= GoInt.max_int)
    by (unfold GoInt.is_int in Hint; lia).
  assert (Hm : Z.to_nat (n - 0) = Z.to_nat n) by (f_equal; lia).
  assert (Hsorted : StronglySorted lex_lt cs)
    by (apply (enum_sorted n (Z.to_nat n) (Z.to_nat n) k 0); auto).
  assert (Hin : forall c, In c cs <-> len c = k /\ increasing_in 0 n c)
    by (intros c; apply (enum_In n (Z.to_nat n) (Z.to_nat n) k 0); auto).
  repeat split.
  - apply (enum_length n (Z.to_nat n) (Z.to_nat n) k 0); auto.
  - apply Forall_forall. intros c Hc. apply Hin in Hc. destruct Hc as [Hl Hinc].
    pose proof (increasing_in_NoDup _ _ _ Hinc).
    apply increasing_in_iff in Hinc. tauto.
  - revert Hsorted. apply StronglySorted_NoDup. apply lex_lt_irrefl.
  - exact Hsorted.
  - intros c Hl Hs Hb. apply Hin. split; [assumption|].
    apply increasing_in_iff. auto.
Qed.

Lemma generateCombinations_enumerates_witness :
  1 <= 5 /\ 1 <= 4 <= 5 /\ GoInt.is_int 5
  /\ length (generateCombinations 5 4) = binomial 5 4
  /\ StronglySorted lex_lt (generateCombinations 5 4).
Proof.
  assert (H1 : 1 <= 5) by lia.
  assert (H2 : 1 <= 4 <= 5) by lia.
  assert (H3 : GoInt.is_int 5) by (unfold GoInt.is_int, GoInt.min_int, GoInt.max_int; lia).
  pose proof (generateCombinations_enumerates 5 4 H1 H2 H3) as H.
  simpl in H. destruct H as (Hc & _ & _ & Hs & _).
  exact (conj H1 (conj H2 (conj H3 (conj Hc Hs)))).
Defined.

(** C10: for a column count [n >= 0] and [k > n] the result is the empty
    sequence; the function returns it and does not panic. *)
Theorem generateCombinations_too_large (n k : Z) :
  0 <= n -> GoInt.is_int k -> n < k -> generateCombinations n k = [].
Proof.
  intros Hn Hint Hlt. unfold generateCombinations.
  change (enum n (Z.to_nat n) k 0 = []).
  apply length_zero_iff_nil.
  rewrite (enum_length n (Z.to_nat n) (Z.to_nat n) k 0).
  - apply binomial_gt. lia.
  - unfold GoInt.is_int in Hint. lia.
  - f_equal. lia.
  - lia.
Qed.

Lemma generateCombinations_too_large_witness :
  0 <= 3 /\ GoInt.is_int 5 /\ 3 < 5 /\ generateCombinations 3 5 = [].
Proof.
  assert (H0 : 0 <= 3) by lia.
  assert (H1 : GoInt.is_int 5) by (unfold GoInt.is_int, GoInt.min_int, GoInt.max_int; lia).
  assert (H2 : 3 < 5) by lia.
  refine (conj H0 (conj H1 (conj H2 _))).
  exact (generateCombinations_too_large 3 5 H0 H1 H2).
Defined.

(** Below the domain: [k == 0] is tested before the loop bound, so for a
    negative [n] and [k = 0] the empty subset is still recorded. *)
Remark generateCombinations_zero_of_negative :
  0 > -1 /\ generateCombinations (-1) 0 = [[]] /\ generateCombinations (-1) 0 <> [].
Proof.
  split; [lia|]. split; [reflexivity|]. discriminate.
Qed.

(** ** Order of binary64 *)

Ltac cmp_cases :=
  repeat match goal with
    | H : context [Z.compare ?a ?b] |- _ => destruct (Z.compare_spec a b)
    | |- context [Z.compare ?a ?b] => destruct (Z.compare_spec a b)
    | H : context [Pos.compare_cont Eq ?a ?b] |- _ =>
        change (Pos.compare_cont Eq a b) with (Pos.compare a b) in H;
        destruct (Pos.compare_spec a b)
    | |- context [Pos.compare_cont Eq ?a ?b] =>
        change (Pos.compare_cont Eq a b) with (Pos.compare a b);
        destruct (Pos.compare_spec a b)
    end.

Ltac sf_cases x := destruct x as [[|]|[|]| |[|] ? ?].

Lemma SFcompare_Lt_trans (x y z : spec_float) :
  SFcompare x y = Some Lt -> SFcompare y z = Some Lt -> SFcompare x z = Some Lt.
Proof.
  sf_cases x; sf_cases y; sf_cases z; simpl; intros H1 H2;
    try discriminate; try reflexivity;
    cmp_cases; subst; simpl in *; try discriminate; try reflexivity; try lia.
Qed.


Lemma SFcompare_Lt_Eq (x y z : spec_float) :
  SFcompare x y = Some Lt -> SFcompare y z = Some Eq -> SFcompare x z = Some Lt.
Proof.
  sf_cases x; sf_cases y; sf_cases z; simpl; intros H1 H2;
    try discriminate; try reflexivity;
    cmp_cases; subst; simpl in *; try discriminate; try reflexivity; try lia.
Qed.

Lemma SFcompare_Lt_irrefl (x : spec_float) : SFcompare x x <> Some Lt.
Proof.
  sf_cases x; simpl; try discriminate;
    cmp_cases; subst; simpl in *; try discriminate; try lia.
Qed.

Lemma ltb_trans (x y z : float64) :
  PrimFloat.ltb x y = true -> PrimFloat.ltb y z = true -> PrimFloat.ltb x z = true.
Proof.
  rewrite !FloatAxioms.ltb_spec. unfold SFltb.
  destruct (SFcompare (Prim2SF x) (Prim2SF y)) as [[]|] eqn:H1; try discriminate.
  destruct (SFcompare (Prim2SF y) (Prim2SF z)) as [[]|] eqn:H2; try discriminate.
  now rewrite (SFcompare_Lt_trans _ _ _ H1 H2).
Qed.

Lemma ltb_irrefl (x : float64) : PrimFloat.ltb x x = false.
Proof.
  rewrite FloatAxioms.ltb_spec. unfold SFltb.
  destruct (SFcompare (Prim2SF x) (Prim2SF x)) as [[]|] eqn:H; try reflexivity.
  now apply SFcompare_Lt_irrefl in H.
Qed.





(** ** The running minimum of a worker *)


Section WorkerProperties.

Context {R : Regression} {M : GoMath}.
Variables (y : list float64) (data : list (list float64)).

(** One iteration either keeps the running best or replaces it by the
    current subset, and replaces it only on a strictly smaller AIC. *)
Lemma consider_cases (best b' : result) (features : list Z) :
  consider y data best features = Some b' ->
  exists mse aic,
    fitModel y features data = Some (mse, aic)
    /\ ((PrimFloat.ltb aic (AIC best) = true /\ b' = mkResult features aic mse)
        \/ (PrimFloat.ltb aic (AIC best) = false /\ b' = best)).
Proof.
  unfold consider. destruct (fitModel y features data) as [[mse aic]|]; simpl;
    [|discriminate].
  intros H. exists mse, aic. split; [reflexivity|].
  destruct (PrimFloat.ltb aic (AIC best)); inversion H; auto.
Qed.

(** The running best never gets worse. *)
Lemma best_decreases (cs : list (list Z)) :
  forall best r,
    foldM (consider y data) cs best = Some r ->
    r = best \/ PrimFloat.ltb (AIC r) (AIC best) = true.
Proof.
  induction cs as [|c cs IH]; intros best r; simpl.
  - intros H. inversion H. now left.
  - destruct (consider y data best c) as [b'|] eqn:Hc; simpl; [|discriminate].
    intros Hr. apply IH in Hr.
    apply consider_cases in Hc.
    destruct Hc as (mse & aic & _ & [[Hlt ->]|[_ ->]]); [|assumption].
    right. destruct Hr as [->|Hr]; [assumption|].
    simpl in Hr. now apply (ltb_trans _ aic).
Qed.

(** The result is the initial value or was recorded at one of the
    subsets. *)
Lemma best_recorded (cs : list (list Z)) :
  forall best r,
    foldM (consider y data) cs best = Some r ->
    r = best
    \/ (In (Features r) cs
        /\ fitModel y (Features r) data = Some (MSE r, AIC r)).
Proof.
  induction cs as [|c cs IH]; intros best r; simpl.
  - intros H. inversion H. now left.
  - destruct (consider y data best c) as [b'|] eqn:Hc; simpl; [|discriminate].
    intros Hr. apply IH in Hr.
    apply consider_cases in Hc.
    destruct Hc as (mse & aic & Hfit & [[Hlt ->]|[_ ->]]).
    + destruct Hr as [->|[Hin Hf]]; right; simpl; auto.
    + destruct Hr as [->|[Hin Hf]]; auto.
Qed.

(** Every subset is fitted and compared: none has an AIC below the AIC of
    the result. *)
Lemma best_is_minimal (cs : list (list Z)) :
  forall best r,
    foldM (consider y data) cs best = Some r ->
    forall c, In c cs ->
      exists mse aic,
        fitModel y c data = Some (mse, aic)
        /\ PrimFloat.ltb aic (AIC r) = false.
Proof.
  induction cs as [|c0 cs IH]; intros best r; simpl; [intros _ c []|].
  destruct (consider y data best c0) as [b'|] eqn:Hc; simpl; [|discriminate].
  intros Hr c [<-|Hin]; [|now apply (IH b' r)].
  pose proof (best_decreases _ _ _ Hr) as Hdec.
  apply consider_cases in Hc.
  destruct Hc as (mse & aic & Hfit & Hcase).
  exists mse, aic. split; [assumption|].
  assert (Hb' : PrimFloat.ltb aic (AIC b') = false).
  { destruct Hcase as [[_ ->]|[Hnlt ->]]; [apply ltb_irrefl|assumption]. }
  destruct Hdec as [->|Hlt]; [assumption|].
  destruct (PrimFloat.ltb aic (AIC r)) eqn:E; [|reflexivity].
  now rewrite (ltb_trans _ _ _ E Hlt) in Hb'.
Qed.

(** A subset whose AIC is not below the running best leaves it alone. *)
Lemma consider_keeps (best b' : result) (c : list Z) (mse aic : float64) :
  fitModel y c data = Some (mse, aic) ->
  PrimFloat.ltb aic (AIC best) = false ->
  consider y data best c = Some b' -> b' = best.
Proof.
  intros Hfit Hnlt. unfold consider. rewrite Hfit. simpl. rewrite Hnlt.
  now inversion 1.
Qed.


End WorkerProperties.

Lemma generateCombinations_In (n k : Z) (c : list Z) :
  0 <= k -> GoInt.is_int k ->
  In c (generateCombinations n k) <-> len c = k /\ increasing_in 0 n c.
Proof.
  intros Hk Hint. unfold GoInt.is_int in Hint.
  apply (enum_In n (Z.to_nat n) (Z.to_nat n) k 0); [lia | f_equal; lia | lia].
Qed.


Section WorkerTies.

Context {R : Regression} {M : GoMath}.
Variables (y : list float64) (data : list (list float64)).




(** When no subset of the size has an AIC below [+Inf]
    (each is [+Inf] or NaN) the worker still has a result, the initial
    one: no features, AIC [+Inf], MSE 0. *)
Lemma worker_sentinel (n size : Z) (r : result) :
  worker y data n size = Some r ->
  (forall c mse aic, In c (generateCombinations n size) ->
     fitModel y c data = Some (mse, aic) ->
     PrimFloat.ltb aic infinity = false) ->
  r = mkResult [] infinity 0.
Proof.
  unfold worker.
  generalize (generateCombinations n size) as cs.
  induction cs as [|c cs IH]; simpl; intros Hw Hall.
  - now inversion Hw.
  - destruct (consider y data (mkResult [] infinity 0) c) as [b'|] eqn:Hc;
      simpl in Hw; [|discriminate].
    destruct (consider_cases y data _ _ _ Hc) as (mse & aic & Hfit & _).
    assert (Hnlt : PrimFloat.ltb aic infinity = false)
      by (apply (Hall c mse aic); auto).
    rewrite (consider_keeps y data (mkResult [] infinity 0) _ _ _ _ Hfit Hnlt Hc) in Hw.
    apply IH; [assumption|]. intros c' mse' aic' Hin. apply Hall. now right.
Qed.

End WorkerTies.

(** ** The goroutine protocol *)

Lemma loop_range_snoc (lo hi : Z) :
  lo <= hi -> loop_range lo (hi + 1) = loop_range lo hi ++ [hi].
Proof.
  intros H. unfold loop_range.
  replace (Z.to_nat (hi + 1 - lo)) with (S (Z.to_nat (hi - lo))) by lia.
  rewrite seq_S, map_app. simpl. do 2 f_equal. lia.
Qed.

Lemma loop_range_length (lo hi : Z) : length (loop_range lo hi) = Z.to_nat (hi - lo).
Proof. unfold loop_range. now rewrite length_map, length_seq. Qed.

Section ProtocolInvariant.

Variable numExplanatory : Z.
Variable search : Z -> option result.

Lemma delivered_app (l1 l2 : list (Z * worker_pc)) :
  delivered search (l1 ++ l2) = delivered search l1 ++ delivered search l2.
Proof. apply flat_map_app. Qed.

Lemma count_signalled_app (l1 l2 : list (Z * worker_pc)) :
  count_signalled (l1 ++ l2) = (count_signalled l1 + count_signalled l2)%nat.
Proof. unfold count_signalled. now rewrite filter_app, length_app. Qed.

Lemma count_signalled_le (ws : list (Z * worker_pc)) :
  (count_signalled ws <= length ws)%nat.
Proof. apply filter_length_le. Qed.

(** Replacing the program counter of one worker. *)
Lemma replace_fst (l1 l2 : list (Z * worker_pc)) (size : Z) (pc pc' : worker_pc) :
  map fst (l1 ++ (size, pc') :: l2) = map fst (l1 ++ (size, pc) :: l2).
Proof. now rewrite !map_app. Qed.

Lemma replace_length (l1 l2 : list (Z * worker_pc)) (size : Z) (pc pc' : worker_pc) :
  length (l1 ++ (size, pc') :: l2) = length (l1 ++ (size, pc) :: l2).
Proof. now rewrite !length_app. Qed.

Lemma replace_pc_ok (l1 l2 : list (Z * worker_pc)) (size : Z) (pc pc' : worker_pc) :
  Forall (pc_ok search) (l1 ++ (size, pc) :: l2) -> pc_ok search (size, pc') ->
  Forall (pc_ok search) (l1 ++ (size, pc') :: l2).
Proof.
  rewrite !Forall_app. intros [H1 H2] H. split; [assumption|].
  inversion H2; subst. now constructor.
Qed.

Lemma replace_delivered_same (l1 l2 : list (Z * worker_pc)) (size : Z)
    (pc pc' : worker_pc) :
  report_of search (size, pc') = report_of search (size, pc) ->
  delivered search (l1 ++ (size, pc') :: l2) = delivered search (l1 ++ (size, pc) :: l2).
Proof.
  intros H. rewrite !delivered_app. f_equal.
  unfold delivered. cbn [flat_map]. now rewrite H.
Qed.

Lemma replace_count_same (l1 l2 : list (Z * worker_pc)) (size : Z)
    (pc pc' : worker_pc) :
  has_signalled pc' = has_signalled pc ->
  count_signalled (l1 ++ (size, pc') :: l2) = count_signalled (l1 ++ (size, pc) :: l2).
Proof.
  intros H. rewrite !count_signalled_app. f_equal.
  unfold count_signalled. cbn [filter snd]. rewrite H.
  now destruct (has_signalled pc).
Qed.

Lemma replace_count_succ (l1 l2 : list (Z * worker_pc)) (size : Z)
    (pc pc' : worker_pc) :
  has_signalled pc = false -> has_signalled pc' = true ->
  count_signalled (l1 ++ (size, pc') :: l2)
  = S (count_signalled (l1 ++ (size, pc) :: l2)).
Proof.
  intros H H'. rewrite !count_signalled_app.
  unfold count_signalled. cbn [filter snd]. rewrite H, H'. simpl. lia.
Qed.

Lemma pc_ok_at (l1 l2 : list (Z * worker_pc)) (w : Z * worker_pc) :
  Forall (pc_ok search) (l1 ++ w :: l2) -> pc_ok search w.
Proof. rewrite Forall_app. intros [_ H]. now inversion H. Qed.

Lemma Inv_init : Inv numExplanatory search init.
Proof.
  constructor; simpl.
  - repeat split; [lia | now left].
  - constructor.
  - constructor.
  - repeat split. now exists 4.
  - discriminate.
Qed.

Lemma Inv_step (s s' : system) : Inv numExplanatory search s -> step numExplanatory search s s' -> Inv numExplanatory search s'.
Proof.
  intros [Hs Hp Ho Hc Hf] Hstep.
  destruct Hstep;
    cbn [workers closer coordinator results_closed printed crashed] in *.
  - (* spawn a worker *)
    destruct Hs as (H4 & Hz & Hmap). destruct Hc as (_ & _ & Hcount).
    constructor; cbn [workers closer coordinator results_closed printed crashed].
    + repeat split; [lia | right; lia|].
      rewrite map_app, Hmap, loop_range_snoc by lia. reflexivity.
    + apply Forall_app. split; [assumption|]. repeat constructor.
    + rewrite delivered_app. simpl. now rewrite app_nil_r.
    + repeat split; [eexists; reflexivity|].
      rewrite count_signalled_app, Hcount. reflexivity.
    + discriminate.
  - (* spawn the closer *)
    destruct Hs as (H4 & Hz & Hmap). destruct Hc as (_ & _ & Hcount).
    constructor; cbn [workers closer coordinator results_closed printed crashed]; auto.
    + rewrite Hmap. unfold sizes. destruct Hz as [->|Hz].
      * rewrite !loop_range_nil by lia. reflexivity.
      * replace size with (numExplanatory + 1) by lia. reflexivity.
    + split; [intros z; discriminate|]. split; [reflexivity|].
      rewrite Hcount. reflexivity.
    + discriminate.
  - (* a worker finishes computing *)
    constructor; cbn [workers closer coordinator results_closed printed crashed].
    + now rewrite (replace_fst _ _ _ WRunning).
    + apply (replace_pc_ok _ _ _ WRunning); assumption.
    + now rewrite (replace_delivered_same _ _ _ WRunning).
    + rewrite (replace_count_same _ _ _ WRunning), (replace_length _ _ _ WRunning)
        by reflexivity. assumption.
    + assumption.
  - (* a worker panics *)
    constructor; cbn [workers closer coordinator results_closed printed crashed].
    + now rewrite (replace_fst _ _ _ WRunning).
    + apply (replace_pc_ok _ _ _ WRunning); assumption.
    + now rewrite (replace_delivered_same _ _ _ WRunning).
    + rewrite (replace_count_same _ _ _ WRunning), (replace_length _ _ _ WRunning)
        by reflexivity. assumption.
    + assumption.
  - (* a result is received and printed *)
    pose proof (pc_ok_at _ _ _ Hp) as Hr. unfold pc_ok in Hr. simpl in Hr.
    constructor; cbn [workers closer coordinator results_closed printed crashed].
    + now rewrite (replace_fst _ _ _ (WSending r)).
    + apply (replace_pc_ok _ _ _ (WSending r)); [assumption|].
      unfold pc_ok. simpl. congruence.
    + rewrite delivered_app in *. simpl in *.
      unfold report_of in *. simpl in *. rewrite Hr.
      rewrite Permutation_app_comm. simpl.
      apply Permutation_cons_app. assumption.
    + rewrite (replace_count_same _ _ _ (WSending r)),
        (replace_length _ _ _ (WSending r)) by reflexivity. assumption.
    + discriminate.
  - (* send on a closed channel *)
    constructor; cbn [workers closer coordinator results_closed printed crashed]; assumption.
  - (* a worker signals done *)
    destruct Hc as (Hm & Hcl & Hi).
    constructor; cbn [workers closer coordinator results_closed printed crashed].
    + now rewrite (replace_fst _ _ _ WDeferred).
    + apply (replace_pc_ok _ _ _ WDeferred); [assumption|].
      exact (pc_ok_at _ _ _ Hp).
    + now rewrite (replace_delivered_same _ _ _ WDeferred).
    + repeat split; try assumption.
      rewrite (replace_count_succ _ _ _ WDeferred) by reflexivity. lia.
    + assumption.
  - (* a panicking worker signals done *)
    destruct Hc as (Hm & Hcl & Hi).
    constructor; cbn [workers closer coordinator results_closed printed crashed].
    + now rewrite (replace_fst _ _ _ WPanicking).
    + apply (replace_pc_ok _ _ _ WPanicking); [assumption|].
      exact (pc_ok_at _ _ _ Hp).
    + now rewrite (replace_delivered_same _ _ _ WPanicking).
    + repeat split; try assumption.
      rewrite (replace_count_succ _ _ _ WPanicking) by reflexivity. lia.
    + assumption.
  - (* the process crashes *)
    constructor; cbn [workers closer coordinator results_closed printed crashed]; assumption.
  - (* close(results) *)
    destruct Hc as (Hm & _ & Hi).
    constructor; cbn [workers closer coordinator results_closed printed crashed]; auto.
    repeat split; [assumption|].
    assert (Hlen : length ws = Z.to_nat (numExplanatory - 3)).
    { rewrite <- (length_map fst).
      destruct m; try (now destruct (Hm size));
        rewrite Hs; unfold sizes; rewrite loop_range_length; f_equal; lia. }
    pose proof (count_signalled_le ws). lia.
  - (* the range loop ends *)
    constructor; cbn [workers closer coordinator results_closed printed crashed]; auto.
    destruct c; simpl in *; try tauto.
    + destruct Hc as ((z & Hz) & _). discriminate.
    + destruct Hc as (Hm & Hcl & Hi).
      split; [intros z; discriminate|]. split; assumption.
    + destruct Hc as (Hm & Hcl & Hi).
      split; [intros z; discriminate|]. split; assumption.
Qed.

Lemma reachable_Inv (s : system) : reachable numExplanatory search s -> Inv numExplanatory search s.
Proof.
  induction 1 as [|s s' _ IH Hstep]; [apply Inv_init|].
  exact (Inv_step s s' IH Hstep).
Qed.

End ProtocolInvariant.

Section ProtocolResults.

Variable numExplanatory : Z.
Variable search : Z -> option result.

Lemma all_signalled (ws : list (Z * worker_pc)) :
  count_signalled ws = length ws ->
  Forall (fun w => has_signalled (snd w) = true) ws.
Proof.
  induction ws as [|w ws IH]; [constructor|].
  unfold count_signalled. cbn [filter length].
  pose proof (count_signalled_le ws) as Hle. unfold count_signalled in Hle.
  destruct (has_signalled (snd w)) eqn:Hw; cbn [length]; intros H; [|lia].
  constructor; [assumption|]. apply IH. unfold count_signalled. lia.
Qed.

(** Once every worker has signalled, what has been delivered is what the
    workers that did not panic computed. *)
Lemma delivered_all (ws : list (Z * worker_pc)) :
  Forall (pc_ok search) ws ->
  Forall (fun w => has_signalled (snd w) = true) ws ->
  delivered search ws
  = flat_map (fun size => match search size with Some r => [r] | None => [] end)
             (map fst ws).
Proof.
  induction 1 as [|[size pc] ws Hok _ IH]; intros Hall; [reflexivity|].
  inversion Hall as [|? ? Hsig Hall']; subst.
  unfold delivered in *. cbn [flat_map map fst]. rewrite IH by assumption.
  f_equal. unfold report_of, pc_ok in *. cbn [fst snd] in *.
  destruct pc; try discriminate; cbn [has_delivered]; [|reflexivity].
  now rewrite Hok.
Qed.

Lemma closed_all_signalled (s : system) :
  Inv numExplanatory search s -> results_closed s = true ->
  map fst (workers s) = sizes numExplanatory
  /\ Forall (fun w => has_signalled (snd w) = true) (workers s).
Proof.
  intros [Hs _ _ Hc _] Hcl.
  destruct (closer s); destruct Hc as (Hm & Hcl' & Hcount); try congruence.
  split; [|now apply all_signalled].
  destruct (coordinator s); [now destruct (Hm size)|assumption|assumption].
Qed.

Lemma finished_printed (s : system) :
  reachable numExplanatory search s -> coordinator s = MFinished ->
  Permutation (printed s) (per_size_results numExplanatory search).
Proof.
  intros Hreach Hfin. pose proof (reachable_Inv _ _ _ Hreach) as HI.
  destruct (closed_all_signalled s HI (inv_finished _ _ _ HI Hfin)) as [Hsz Hall].
  rewrite (inv_printed _ _ _ HI).
  rewrite (delivered_all _ (inv_pcs _ _ _ HI) Hall), Hsz. reflexivity.
Qed.

Lemma per_size_results_length :
  (forall size, In size (sizes numExplanatory) -> search size <> None) ->
  length (per_size_results numExplanatory search) = length (sizes numExplanatory).
Proof.
  unfold per_size_results. induction (sizes numExplanatory) as [|z l IH];
    intros H; [reflexivity|].
  cbn [flat_map]. rewrite length_app, IH by (intros; apply H; now right).
  specialize (H z (or_introl eq_refl)). now destruct (search z).
Qed.

Lemma sizes_length : length (sizes numExplanatory) = Z.to_nat (numExplanatory - 3).
Proof. unfold sizes. rewrite loop_range_length. f_equal. lia. Qed.

(** A report that ends with an overall best has one entry more than there
    are per-size results. *)
Lemma reports_best_length (report perSize : list result) :
  reports_best report perSize -> length report = S (length perSize).
Proof.
  intros (front & best & -> & Hperm & _).
  rewrite length_app, (Permutation_length Hperm). simpl. lia.
Qed.

End ProtocolResults.

(** *** A run with two workers *)

Lemma two_worker_run (search : Z -> option result) (r4 r5 : result) :
  search 4 = Some r4 -> search 5 = Some r5 ->
  reachable 5 search
    (mkSystem [(4, WDeferred); (5, WRunning)] (CWaiting 4) MReceiving false [r4] false)
  /\ reachable 5 search
       (mkSystem [(4, WExited); (5, WExited)] CClosed MFinished true [r4; r5] false).
Proof.
  intros H4 H5.
  assert (R1 : reachable 5 search
                 (mkSystem [(4, WDeferred); (5, WRunning)] (CWaiting 4) MReceiving
                           false [r4] false)).
  { eapply reachable_step; [|exact (step_deliver 5 search [] [(5, WRunning)] 4 r4 _ [])].
    eapply reachable_step;
      [|apply (step_compute 5 search [] [(5, WRunning)] 4 r4); [exact H4|discriminate]].
    eapply reachable_step;
      [|apply (step_spawn_closer 5 search [(4, WRunning); (5, WRunning)] 6); lia].
    eapply reachable_step;
      [|apply (step_spawn_worker 5 search [(4, WRunning)] 5); lia].
    eapply reachable_step;
      [|apply (step_spawn_worker 5 search [] 4); lia].
    apply reachable_init. }
  split; [exact R1|].
  eapply reachable_step; [|apply step_finish].
  eapply reachable_step;
    [|apply (step_close 5 search _ 6); [lia|discriminate]].
  eapply reachable_step;
    [|apply (step_done 5 search [(4, WExited)] [] 5 5); [lia|discriminate]].
  eapply reachable_step;
    [|exact (step_deliver 5 search [(4, WExited)] [] 5 r5 _ [r4])].
  eapply reachable_step;
    [|apply (step_compute 5 search [(4, WExited)] [] 5 r5); [exact H5|discriminate]].
  eapply reachable_step;
    [|apply (step_done 5 search [] [(5, WRunning)] 4 4); [lia|discriminate]].
  exact R1.
Qed.

Lemma sample_workers :
  exists r4 r5,
    Sample.search 4 = Some r4 /\ Sample.search 5 = Some r5.
Proof. do 2 eexists. split; vm_compute; reflexivity. Qed.

Lemma sample_prepare : prepare Sample.table = Some (Sample.y, 5).
Proof. reflexivity. Qed.

Lemma sample_program (s : system) :
  reachable 5 Sample.search s ->
  @program_reachable Sample.intercept_only Sample.math Sample.table s.
Proof. unfold program_reachable. rewrite sample_prepare. exact (fun H => H). Qed.

(** *** A run that ends

    The schedule in which the workers compute, send and signal one after
    the other, by ascending size. *)

Section SequentialRun.

Variable numExplanatory : Z.
Variable search : Z -> option result.

Lemma spawn_all (j : nat) :
  4 + Z.of_nat j <= Z.max 4 (numExplanatory + 1) ->
  reachable numExplanatory search
    (mkSystem (map (fun size => (size, WRunning)) (loop_range 4 (4 + Z.of_nat j)))
              CNotStarted (MSpawning (4 + Z.of_nat j)) false [] false).
Proof.
  induction j as [|j IH]; intros Hj.
  - rewrite loop_range_nil by lia. apply reachable_init.
  - eapply reachable_step; [apply IH; lia|].
    replace (4 + Z.of_nat (S j)) with (4 + Z.of_nat j + 1) by lia.
    rewrite loop_range_snoc, map_app by lia.
    apply step_spawn_worker. lia.
Qed.

Lemma sizes_upto : loop_range 4 (4 + Z.of_nat (length (sizes numExplanatory)))
                   = sizes numExplanatory.
Proof.
  rewrite sizes_length. unfold sizes.
  destruct (Z_lt_le_dec numExplanatory 3) as [Hlt|Hge].
  - rewrite !loop_range_nil by lia. reflexivity.
  - f_equal. lia.
Qed.

Lemma run_workers (waiting : list Z) :
  forall finished,
    sizes numExplanatory = finished ++ waiting ->
    (forall size, In size waiting -> search size <> None) ->
    reachable numExplanatory search (between search finished waiting) ->
    reachable numExplanatory search (between search (finished ++ waiting) []).
Proof.
  induction waiting as [|size waiting IH]; intros finished Hsizes Hsome Hreach.
  - now rewrite app_nil_r.
  - replace (finished ++ size :: waiting) with ((finished ++ [size]) ++ waiting)
      by (now rewrite <- app_assoc).
    apply IH.
    + now rewrite <- app_assoc.
    + intros sz Hin. apply Hsome. now right.
    + destruct (search size) as [r|] eqn:Hr;
        [|now destruct (Hsome size (or_introl eq_refl))].
      assert (Hle : 4 + len finished <= numExplanatory).
      { pose proof (sizes_length numExplanatory) as Hlen.
        rewrite Hsizes, length_app in Hlen. cbn [length] in Hlen. unfold len. clear - Hlen. lia. }
      unfold between in *. cbn [map] in Hreach.
      rewrite map_app, flat_map_app. cbn [map flat_map]. rewrite Hr, app_nil_r.
      rewrite <- app_assoc. cbn [app].
      replace (4 + len (finished ++ [size])) with (4 + len finished + 1)
        by (unfold len; rewrite length_app; cbn [length]; lia).
      eapply reachable_step; [|apply step_done; [exact Hle|discriminate]].
      eapply reachable_step; [|apply step_deliver].
      eapply reachable_step; [|apply step_compute; [exact Hr|discriminate]].
      exact Hreach.
Qed.

(** When no worker panics there is a run in which the range loop ends, and
    at its end the results have been printed by ascending size. *)
Lemma run_completes :
  (forall size, In size (sizes numExplanatory) -> search size <> None) ->
  exists s,
    reachable numExplanatory search s
    /\ coordinator s = MFinished
    /\ printed s = per_size_results numExplanatory search.
Proof.
  intros Hsome.
  pose proof (spawn_all (length (sizes numExplanatory))) as Hspawn.
  rewrite sizes_upto in Hspawn.
  assert (Hstart : reachable numExplanatory search (between search [] (sizes numExplanatory))).
  { eapply reachable_step.
    - apply Hspawn. rewrite sizes_length. lia.
    - unfold between. cbn [map app flat_map len length Z.of_nat].
      apply step_spawn_closer. rewrite sizes_length. lia. }
  apply (run_workers _ [] eq_refl Hsome) in Hstart. cbn [app] in Hstart.
  unfold between in Hstart. cbn [map] in Hstart. rewrite app_nil_r in Hstart.
  eexists. split.
  - eapply reachable_step; [|apply step_finish].
    eapply reachable_step; [exact Hstart|].
    apply step_close; [|discriminate].
    unfold len. rewrite sizes_length. lia.
  - split; reflexivity.
Qed.

End SequentialRun.

(** ** What the coordinator reports, and when *)

Section Coordinator.

Context {R : Regression} {M : GoMath}.

(** C3, as the program has it: when the range loop has ended, what has
    been printed is exactly the results of the workers, one per size, in
    the order of their arrival; no overall best follows them. *)
Theorem coordinator_prints_per_size_results
    (data : list (list float64)) (y : list float64) (numExplanatory : Z)
    (s : system) :
  prepare data = Some (y, numExplanatory) ->
  program_reachable data s ->
  coordinator s = MFinished ->
  Permutation (printed s)
              (per_size_results numExplanatory (worker y data numExplanatory))
  /\ ~ reports_best (printed s)
         (per_size_results numExplanatory (worker y data numExplanatory)).
Proof.
  intros Hprep Hreach Hfin. unfold program_reachable in Hreach.
  rewrite Hprep in Hreach.
  pose proof (finished_printed _ _ _ Hreach Hfin) as Hperm.
  split; [exact Hperm|].
  intros Hbest. apply reports_best_length in Hbest.
  apply Permutation_length in Hperm. lia.
Qed.


(** C8, as the program has it: there is no singular subset in the
    program.  A worker that does not panic sends the sentinel (no
    features, AIC [+Inf], MSE 0) exactly when no subset of its size has an
    AIC below [+Inf] (each is [+Inf] or NaN); when the range loop has
    ended and no worker has panicked, one result per size has been
    printed; and without a panic there is a run in which the loop does
    end. *)
Theorem worker_always_reports
    (data : list (list float64)) (y : list float64) (numExplanatory : Z) :
  prepare data = Some (y, numExplanatory) ->
  (forall size r,
      worker y data numExplanatory size = Some r ->
      (r = mkResult [] infinity 0
       <-> (forall c mse aic,
               In c (generateCombinations numExplanatory size) ->
               fitModel y c data = Some (mse, aic) ->
               PrimFloat.ltb aic infinity = false)))
  /\ (forall s,
         program_reachable data s ->
         coordinator s = MFinished ->
         (forall size, In size (sizes numExplanatory) ->
                       worker y data numExplanatory size <> None) ->
         length (printed s) = length (sizes numExplanatory)
         /\ length (sizes numExplanatory) = Z.to_nat (numExplanatory - 3))
  /\ ((forall size, In size (sizes numExplanatory) ->
                    worker y data numExplanatory size <> None) ->
      exists s, program_reachable data s /\ coordinator s = MFinished).
Proof.
  intros Hprep. split; [|split].
  - intros size r Hw. split.
    + intros -> c mse aic Hin Hfit.
      destruct (best_is_minimal y data _ _ _ Hw c Hin) as (m & a & Hf & Hmin).
      rewrite Hfit in Hf. inversion Hf; subst m a. exact Hmin.
    + now apply worker_sentinel.
  - intros s Hreach Hfin Hsome. unfold program_reachable in Hreach.
    rewrite Hprep in Hreach.
    pose proof (finished_printed _ _ _ Hreach Hfin) as Hperm.
    split; [|apply sizes_length].
    rewrite (Permutation_length Hperm). now apply per_size_results_length.
  - intros Hsome. destruct (run_completes _ _ Hsome) as (s & Hreach & Hfin & _).
    exists s. unfold program_reachable. rewrite Hprep. auto.
Qed.

End Coordinator.

Lemma sample_per_size (search : Z -> option result) (r4 r5 : result) :
  search 4 = Some r4 -> search 5 = Some r5 ->
  per_size_results 5 search = [r4; r5].
Proof.
  intros H4 H5. unfold per_size_results, sizes, loop_range. simpl.
  now rewrite H4, H5.
Qed.

Lemma coordinator_prints_per_size_results_witness :
  exists s,
    prepare Sample.table = Some (Sample.y, 5)
    /\ @program_reachable Sample.intercept_only Sample.math Sample.table s
    /\ coordinator s = MFinished
    /\ Permutation (printed s) (per_size_results 5 Sample.search).
Proof.
  destruct sample_workers as (r4 & r5 & H4 & H5).
  destruct (two_worker_run Sample.search r4 r5 H4 H5) as [_ Hfin].
  eexists. split; [exact sample_prepare|].
  split; [exact (sample_program _ Hfin)|].
  split; [reflexivity|].
  exact (proj1 (@coordinator_prints_per_size_results
                  Sample.intercept_only Sample.math Sample.table Sample.y 5 _
                  sample_prepare (sample_program _ Hfin) eq_refl)).
Defined.

(** C3 as stated fails: a complete run on the sample table prints the two
    per-size results and nothing that reports an overall best. *)
Lemma coordinator_reports_no_best :
  exists s,
    @program_reachable Sample.intercept_only Sample.math Sample.table s
    /\ coordinator s = MFinished
    /\ length (printed s) = length (per_size_results 5 Sample.search)
    /\ ~ reports_best (printed s) (per_size_results 5 Sample.search).
Proof.
  destruct sample_workers as (r4 & r5 & H4 & H5).
  destruct (two_worker_run Sample.search r4 r5 H4 H5) as [_ Hfin].
  eexists. split; [exact (sample_program _ Hfin)|].
  split; [reflexivity|].
  rewrite (sample_per_size _ _ _ H4 H5). split; [reflexivity|].
  intros Hbest. apply reports_best_length in Hbest. discriminate.
Qed.



Lemma unbounded_workers :
  Sample.unbounded_search 4 = Some (mkResult [] infinity 0)
  /\ Sample.unbounded_search 5 = Some (mkResult [] infinity 0).
Proof. split; vm_compute; reflexivity. Qed.

Lemma unbounded_prepare :
  prepare Sample.unbounded_table = Some (Sample.unbounded_y, 5).
Proof. reflexivity. Qed.

Lemma worker_always_reports_witness :
  prepare Sample.unbounded_table = Some (Sample.unbounded_y, 5)
  /\ Sample.unbounded_search 4 = Some (mkResult [] infinity 0)
  /\ exists s,
       @program_reachable Sample.intercept_only Sample.math Sample.unbounded_table s
       /\ coordinator s = MFinished
       /\ length (printed s) = 2%nat.
Proof.
  destruct unbounded_workers as [H4 H5].
  destruct (@worker_always_reports Sample.intercept_only Sample.math
              Sample.unbounded_table Sample.unbounded_y 5 unbounded_prepare)
    as (Hsentinel & Hcount & _).
  split; [exact unbounded_prepare|]. split; [exact H4|].
  destruct (two_worker_run Sample.unbounded_search _ _ H4 H5) as [_ Hfin].
  assert (Hprog : @program_reachable Sample.intercept_only Sample.math
                    Sample.unbounded_table
                    (mkSystem [(4, WExited); (5, WExited)] CClosed MFinished true
                       [mkResult [] infinity 0; mkResult [] infinity 0] false)).
  { unfold program_reachable. rewrite unbounded_prepare. exact Hfin. }
  eexists. split; [exact Hprog|]. split; [reflexivity|].
  refine (eq_trans (proj1 (Hcount _ Hprog eq_refl _)) _); [|reflexivity].
  intros size [<-|[<-|[]]].
  - change (Sample.unbounded_search 4 <> None). rewrite H4. discriminate.
  - change (Sample.unbounded_search 5 <> None). rewrite H5. discriminate.
Defined.

(** C8 as stated fails: the only subset of size 5 of the sample table has
    two equal columns, and the library reports that it cannot run on it,
    so every subset of that size is singular; still the worker for size 5
    sends no sentinel but this subset, with an AIC below [+Inf]. *)
Lemma all_singular_size_is_fitted :
  exists xs r best,
    generateCombinations 5 5 = [[0; 1; 2; 3; 4]]
    /\ feature_column Sample.table 0 = feature_column Sample.table 1
    /\ @trained_regression Sample.intercept_only Sample.y [0; 1; 2; 3; 4]
         Sample.table = Some (xs, r)
    /\ fst (@Run Sample.intercept_only r) <> None
    /\ Sample.search 5 = Some best
    /\ Features best = [0; 1; 2; 3; 4]
    /\ PrimFloat.ltb (AIC best) infinity = true
    /\ best <> mkResult [] infinity 0.
Proof.
  do 3 eexists. split; [reflexivity|].
  split; [reflexivity|].
  split; [vm_compute; reflexivity|].
  split; [vm_compute; discriminate|].
  split; [vm_compute; reflexivity|].
  split; [reflexivity|].
  split; [vm_compute; reflexivity|].
  discriminate.
Qed.


(** ** What [fitModel] computes *)

Lemma bind_Some {A B : Type} (m : option A) (f : A -> option B) (b : B) :
  bind m f = Some b -> exists a, m = Some a /\ f a = Some b.
Proof. destruct m as [a|]; simpl; [eauto|discriminate]. Qed.

Lemma at_index_Some {A : Type} (s : list A) (i : Z) (a : A) :
  at_index s i = Some a -> 0 <= i < len s.
Proof.
  unfold at_index, len. destruct (i <? 0) eqn:Hi; [discriminate|].
  intros H. apply Z.ltb_ge in Hi.
  assert (Hn : nth_error s (Z.to_nat i) <> None) by congruence.
  apply nth_error_Some in Hn. lia.
Qed.

Lemma at_index_total {A : Type} (s : list A) (i : Z) :
  0 <= i < len s -> exists a, at_index s i = Some a.
Proof.
  unfold at_index, len. intros H.
  destruct (i <? 0) eqn:Hi; [apply Z.ltb_lt in Hi; lia|].
  destruct (nth_error s (Z.to_nat i)) as [a|] eqn:Hn; [eauto|].
  apply nth_error_None in Hn. lia.
Qed.

Section FitModelProperties.

Context {R : Regression} {M : GoMath}.

(** A row of [xs] is a column of the table: one value per row of [data]. *)
Lemma feature_column_acc (data : list (list float64)) (idx : Z) :
  forall x0 x,
    foldM (fun x row => v <- at_index row idx ;; Some (x ++ [v])) data x0 = Some x ->
    exists col, x = x0 ++ col
                /\ Forall2 (fun row v => at_index row idx = Some v) data col.
Proof.
  induction data as [|row data IH]; intros x0 x; simpl.
  - intros H. inversion H. exists []. split; [now rewrite app_nil_r|constructor].
  - intros H. apply bind_Some in H. destruct H as (x1 & H1 & H).
    apply bind_Some in H1. destruct H1 as (v & Hv & H1). inversion H1; subst x1.
    apply IH in H. destruct H as (col & -> & Hcol).
    exists (v :: col). split; [now rewrite <- app_assoc|now constructor].
Qed.

Lemma feature_column_spec (data : list (list float64)) (idx : Z) (x : list float64) :
  feature_column data idx = Some x ->
  Forall2 (fun row v => at_index row idx = Some v) data x.
Proof.
  intros H. apply feature_column_acc in H. destruct H as (col & -> & H).
  exact H.
Qed.

Lemma collect_features_acc (data : list (list float64)) (features : list Z) :
  forall xs0 r0 xs r,
    foldM (fun '(xs, r) idx =>
             let varName := Itoa idx in
             let r := SetVar idx varName r in
             x <- feature_column data idx ;;
             Some (xs ++ [x], r))
          features (xs0, r0) = Some (xs, r) ->
    exists cols, xs = xs0 ++ cols
                 /\ Forall2 (fun idx x => feature_column data idx = Some x)
                            features cols.
Proof.
  induction features as [|idx features IH]; intros xs0 r0 xs r; simpl.
  - intros H. inversion H. exists []. split; [now rewrite app_nil_r|constructor].
  - intros H. apply bind_Some in H. destruct H as ([xs1 r1] & H1 & H).
    apply bind_Some in H1. destruct H1 as (x & Hx & H1). inversion H1; subst xs1 r1.
    apply IH in H. destruct H as (cols & -> & Hcols).
    exists (x :: cols). split; [now rewrite <- app_assoc|now constructor].
Qed.

Lemma collect_features_spec (data : list (list float64)) (features : list Z)
    (r0 r : regression) (xs : list (list float64)) :
  collect_features features data r0 = Some (xs, r) ->
  Forall2 (fun idx x => feature_column data idx = Some x) features xs.
Proof.
  intros H. apply collect_features_acc in H. destruct H as (cols & -> & H).
  exact H.
Qed.

(** Training reads [y[i]] for every row of [xs]. *)
Lemma train_all_bound (y : list float64) (xs : list (list float64)) :
  forall i0 r r',
    0 <= i0 ->
    foldMi (fun r i row => yi <- at_index y i ;; Some (Train [DataPoint yi row] r))
           i0 xs r = Some r' ->
    xs = [] \/ i0 + len xs <= len y.
Proof.
  induction xs as [|row xs IH]; intros i0 r r' Hi0; simpl; [now left|].
  intros H. right. apply bind_Some in H. destruct H as (r1 & H1 & H).
  apply bind_Some in H1. destruct H1 as (yi & Hyi & _).
  apply at_index_Some in Hyi.
  apply IH in H; [|lia]. unfold len in *. simpl length.
  destruct H as [->|H]; simpl; lia.
Qed.

Lemma fitModel_unfold (y : list float64) (features : list Z)
    (data : list (list float64)) (mse aic : float64) :
  fitModel y features data = Some (mse, aic) ->
  exists xs r f r',
    trained_regression y features data = Some (xs, r)
    /\ sum_squares y xs (snd (Run r)) = Some (f, r')
    /\ mse = (f / float_of_len xs)%float
    /\ aic = (float_of_len xs * Log mse + 2 * float_of_len features)%float.
Proof.
  unfold fitModel. intros H.
  apply bind_Some in H. destruct H as ([xs r] & Ht & H).
  destruct (Run r) as [e r1] eqn:Hrun.
  apply bind_Some in H. destruct H as ([f r'] & Hs & H).
  inversion H. exists xs, r, f, r'. rewrite Hrun. auto.
Qed.

Lemma trained_regression_spec (y : list float64) (features : list Z)
    (data : list (list float64)) (xs : list (list float64)) (r : regression) :
  trained_regression y features data = Some (xs, r) ->
  Forall2 (fun idx x => feature_column data idx = Some x) features xs
  /\ (length xs <= length y)%nat.
Proof.
  unfold trained_regression. intros H.
  apply bind_Some in H. destruct H as ([xs1 r1] & Hc & H).
  apply bind_Some in H. destruct H as (r2 & Ht & H). inversion H; subst xs1 r2.
  split; [exact (collect_features_spec _ _ _ _ _ Hc)|].
  apply train_all_bound in Ht; [|lia].
  destruct Ht as [->|Ht]; [simpl; lia|]. unfold len in Ht. lia.
Qed.

Lemma float_of_len_eq {A B : Type} (l1 : list A) (l2 : list B) :
  length l1 = length l2 -> float_of_len l1 = float_of_len l2.
Proof. unfold float_of_len, len. now intros ->. Qed.

(** C1, as the program has it: [xs] has one row per selected feature, the
    row being that column of the table (one value per row of the table);
    the residuals are summed over the rows of [xs], reading [y[i]] for
    [i < len(features)] only, and the sum is divided by the number of
    features. *)
Theorem fitModel_mse_over_features (y : list float64) (features : list Z)
    (data : list (list float64)) (mse aic : float64) :
  fitModel y features data = Some (mse, aic) ->
  exists xs r f r',
    trained_regression y features data = Some (xs, r)
    /\ Forall2 (fun idx x =>
                  Forall2 (fun row v => at_index row idx = Some v) data x)
               features xs
    /\ (length features <= length y)%nat
    /\ sum_squares y xs (snd (Run r)) = Some (f, r')
    /\ mse = (f / float_of_len features)%float.
Proof.
  intros H. apply fitModel_unfold in H.
  destruct H as (xs & r & f & r' & Ht & Hs & Hmse & _).
  destruct (trained_regression_spec _ _ _ _ _ Ht) as [Hcols Hlen].
  pose proof (Forall2_length Hcols) as Hk.
  exists xs, r, f, r'. repeat split; try assumption.
  - revert Hcols. apply Forall2_impl. intros idx x. apply feature_column_spec.
  - lia.
  - rewrite Hmse. f_equal. now apply float_of_len_eq.
Qed.

Lemma fitModel_aic_eq (y : list float64) (features : list Z)
    (data : list (list float64)) (mse aic : float64) :
  fitModel y features data = Some (mse, aic) ->
  aic = (float_of_len features * Log mse + 2 * float_of_len features)%float.
Proof.
  intros H. apply fitModel_unfold in H.
  destruct H as (xs & r & f & r' & Ht & _ & _ & Haic).
  destruct (trained_regression_spec _ _ _ _ _ Ht) as [Hcols _].
  rewrite Haic. do 2 f_equal. apply float_of_len_eq.
  symmetry. exact (Forall2_length Hcols).
Qed.

(** C2, as the program has it: the factor of [ln(MSE)] is [len(xs)], and
    [xs] has one row per selected feature, so the AIC is
    [k * ln(MSE) + 2 * k] for [k] features, whatever the number of rows of
    the table. *)
Theorem fitModel_aic_formula (y : list float64) (features : list Z)
    (data : list (list float64)) (mse aic : float64) :
  fitModel y features data = Some (mse, aic) ->
  exists xs r,
    trained_regression y features data = Some (xs, r)
    /\ length xs = length features
    /\ aic = (float_of_len xs * Log mse + 2 * float_of_len features)%float
    /\ aic = (float_of_len features * Log mse + 2 * float_of_len features)%float.
Proof.
  intros H. pose proof (fitModel_aic_eq _ _ _ _ _ H) as Heq.
  apply fitModel_unfold in H.
  destruct H as (xs & r & f & r' & Ht & _ & _ & Haic).
  destruct (trained_regression_spec _ _ _ _ _ Ht) as [Hcols _].
  exists xs, r. repeat split; try assumption.
  symmetry. exact (Forall2_length Hcols).
Qed.

(** With fewer rows than selected features [y[i]] is out of range, whatever
    the library does: two rows, four features. *)
Lemma fitModel_short_table_panics :
  fitModel [10; 12]%float [0; 1; 2; 3] Sample.short_table = None.
Proof.
  unfold fitModel, trained_regression, collect_features. simpl.
  reflexivity.
Qed.

End FitModelProperties.

Lemma fitModel_sample_value :
  exists aic,
    @fitModel Sample.intercept_only Sample.math Sample.y [0; 1; 2; 3] Sample.table
    = Some (137.5, aic)%float
    /\ 137.5%float = ((10 * 10 + 12 * 12 + 9 * 9 + 15 * 15) / 4)%float
    /\ aic = (4 * Sample.log 137.5 + 2 * 4)%float
    /\ aic <> (5 * Sample.log 137.5 + 2 * 4)%float.
Proof.
  eexists. split; [vm_compute; reflexivity|].
  split; [vm_compute; reflexivity|].
  split; [vm_compute; reflexivity|].
  vm_compute.
  match goal with
  | |- ?a = ?b -> False =>
      intros H;
      assert (E : PrimFloat.eqb a b = PrimFloat.eqb a a) by (now rewrite <- H);
      vm_compute in E; discriminate
  end.
Qed.

Lemma fitModel_mse_over_features_witness :
  exists mse aic,
    @fitModel Sample.intercept_only Sample.math Sample.y [0; 1; 2; 3] Sample.table
    = Some (mse, aic)
    /\ exists f, mse = (f / float_of_len [0; 1; 2; 3])%float.
Proof.
  destruct fitModel_sample_value as (aic & H & _).
  exists 137.5%float, aic. split; [exact H|].
  destruct (@fitModel_mse_over_features Sample.intercept_only Sample.math
              Sample.y [0; 1; 2; 3] Sample.table _ _ H)
    as (xs & r & f & r' & _ & _ & _ & _ & Hmse).
  exists f. exact Hmse.
Defined.

Lemma fitModel_aic_formula_witness :
  exists mse aic,
    @fitModel Sample.intercept_only Sample.math Sample.y [0; 1; 2; 3] Sample.table
    = Some (mse, aic)
    /\ aic = (float_of_len [0; 1; 2; 3] * Sample.log mse
              + 2 * float_of_len [0; 1; 2; 3])%float.
Proof.
  destruct fitModel_sample_value as (aic & H & _).
  exists 137.5%float, aic. split; [exact H|].
  destruct (@fitModel_aic_formula Sample.intercept_only Sample.math
              Sample.y [0; 1; 2; 3] Sample.table _ _ H)
    as (xs & r & _ & _ & _ & Haic).
  exact Haic.
Defined.

(** ** Errors of the library *)

Section FitModelTotal.

Context {R : Regression} {M : GoMath}.

Lemma feature_column_total (data : list (list float64)) (idx : Z) :
  Forall (fun row => 0 <= idx < len row) data ->
  forall x0, exists x,
    foldM (fun x row => v <- at_index row idx ;; Some (x ++ [v])) data x0 = Some x.
Proof.
  induction 1 as [|row data Hrow _ IH]; intros x0; simpl; [eauto|].
  destruct (at_index_total row idx Hrow) as (v & ->). simpl. apply IH.
Qed.

Lemma collect_features_total (data : list (list float64)) (features : list Z) :
  Forall (fun idx => Forall (fun row => 0 <= idx < len row) data) features ->
  forall xs0 r0, exists xs r,
    foldM (fun '(xs, r) idx =>
             let varName := Itoa idx in
             let r := SetVar idx varName r in
             x <- feature_column data idx ;;
             Some (xs ++ [x], r))
          features (xs0, r0) = Some (xs, r).
Proof.
  induction 1 as [|idx features Hidx _ IH]; intros xs0 r0; simpl; [eauto|].
  destruct (feature_column_total data idx Hidx []) as (x & Hx).
  unfold feature_column. rewrite Hx. simpl. apply IH.
Qed.

Lemma train_all_total (y : list float64) (xs : list (list float64)) :
  forall i0 r,
    0 <= i0 -> i0 + len xs <= len y ->
    exists r',
      foldMi (fun r i row => yi <- at_index y i ;; Some (Train [DataPoint yi row] r))
             i0 xs r = Some r'.
Proof.
  induction xs as [|row xs IH]; intros i0 r Hi0 Hlen; simpl; [eauto|].
  unfold len in *. simpl length in Hlen.
  destruct (at_index_total y i0) as (yi & ->); [unfold len; lia|]. simpl.
  apply IH; lia.
Qed.

Lemma sum_squares_total (y : list float64) (xs : list (list float64)) :
  forall i0 st,
    0 <= i0 -> i0 + len xs <= len y ->
    exists st',
      foldMi (fun '(f, r) i row =>
                let '((yPred, _), r) := Predict row r in
                yi <- at_index y i ;;
                Some ((f + Pow (yi - yPred) 2)%float, r))
             i0 xs st = Some st'.
Proof.
  induction xs as [|row xs IH]; intros i0 [f r] Hi0 Hlen; simpl; [eauto|].
  unfold len in *. simpl length in Hlen.
  destruct (Predict row r) as [[yPred e] r1].
  destruct (at_index_total y i0) as (yi & ->); [unfold len; lia|]. simpl.
  apply IH; lia.
Qed.

(** On a table whose rows have the selected columns, and with at least as
    many responses as selected features, [fitModel] returns a pair; what
    [Run] and [Predict] report does not matter. *)
Lemma fitModel_total (y : list float64) (features : list Z)
    (data : list (list float64)) :
  Forall (fun idx => Forall (fun row => 0 <= idx < len row) data) features ->
  (length features <= length y)%nat ->
  exists mse aic, fitModel y features data = Some (mse, aic).
Proof.
  intros Hcols Hlen.
  destruct (collect_features_total data features Hcols []
              (SetObserved "mv" zero_regression)) as (xs & r & Hc).
  assert (Hc' : collect_features features data (SetObserved "mv" zero_regression)
                = Some (xs, r)) by exact Hc.
  pose proof (Forall2_length (collect_features_spec _ _ _ _ _ Hc')) as Hk.
  assert (Hb : 0 + len xs <= len y) by (unfold len; lia).
  destruct (train_all_total y xs 0 r (Z.le_refl 0) Hb) as (r1 & Ht).
  assert (Ht' : train_all y xs r = Some r1) by exact Ht.
  unfold fitModel, trained_regression. rewrite Hc'. cbn [bind]. rewrite Ht'.
  cbn [bind]. destruct (Run r1) as [e r2].
  destruct (sum_squares_total y xs 0 (0%float, r2) (Z.le_refl 0) Hb)
    as ([f r3] & Hs).
  assert (Hs' : sum_squares y xs r2 = Some (f, r3)) by exact Hs.
  rewrite Hs'. cbn [bind]. eauto.
Qed.

(** C5, as the program has it: [fitModel] has no failure result.  Whatever
    the library reports for a subset, a pair (MSE, AIC) comes back as long
    as the indexing is in range, and the worker compares the AIC of every
    subset with its running best: its result has an AIC that the AIC of no
    subset of the size is below.  Nothing is skipped, and no error value
    leaves the worker. *)
Theorem fit_failures_are_not_reported (y : list float64)
    (data : list (list float64)) :
  (forall features,
      Forall (fun idx => Forall (fun row => 0 <= idx < len row) data) features ->
      (length features <= length y)%nat ->
      exists mse aic, fitModel y features data = Some (mse, aic))
  /\ (forall n size r,
         worker y data n size = Some r ->
         forall c, In c (generateCombinations n size) ->
           exists mse aic,
             fitModel y c data = Some (mse, aic)
             /\ PrimFloat.ltb aic (AIC r) = false).
Proof.
  split.
  - intros features. apply fitModel_total.
  - intros n size r Hw. exact (best_is_minimal y data _ _ _ Hw).
Qed.

End FitModelTotal.

Lemma fit_failures_are_not_reported_witness :
  exists r,
    Sample.search 4 = Some r
    /\ exists mse aic,
         @fitModel Sample.intercept_only Sample.math Sample.y [0; 1; 2; 4]
           Sample.table = Some (mse, aic)
         /\ PrimFloat.ltb aic (AIC r) = false.
Proof.
  destruct sample_workers as (r4 & r5 & H4 & H5).
  exists r4. split; [exact H4|].
  refine (proj2 (@fit_failures_are_not_reported Sample.intercept_only Sample.math
                   Sample.y Sample.table) 5 4 r4 H4 [0; 1; 2; 4] _).
  right. now left.
Defined.

(** C5 as stated fails: in the sample table columns 0 and 1 are equal, and
    for the subset 0,1,2,3 the library reports that it cannot run; still
    [fitModel] returns a pair for it, and the subset is the result of the
    worker for size 4. *)
Lemma rank_deficient_subset_is_fitted_and_wins :
  exists xs r mse aic best,
    feature_column Sample.table 0 = feature_column Sample.table 1
    /\ @trained_regression Sample.intercept_only Sample.y [0; 1; 2; 3]
         Sample.table = Some (xs, r)
    /\ fst (@Run Sample.intercept_only r) <> None
    /\ @fitModel Sample.intercept_only Sample.math Sample.y [0; 1; 2; 3]
         Sample.table = Some (mse, aic)
    /\ Sample.search 4 = Some best
    /\ Features best = [0; 1; 2; 3].
Proof.
  do 5 eexists. split; [reflexivity|].
  split; [vm_compute; reflexivity|].
  split; [vm_compute; discriminate|].
  split; [vm_compute; reflexivity|].
  split; [vm_compute; reflexivity|].
  reflexivity.
Qed.

(** ** Magnitude of binary64 results *)

Lemma digits2_pos_bounds (p : positive) :
  2 ^ (Z.pos (digits2_pos p) - 1) <= Z.pos p < 2 ^ Z.pos (digits2_pos p).
Proof.
  induction p as [p IH|p IH|]; simpl digits2_pos.
  - rewrite Pos2Z.inj_succ.
    replace (Z.succ (Z.pos (digits2_pos p)) - 1) with (Z.succ (Z.pos (digits2_pos p) - 1)) by lia.
    rewrite !Z.pow_succ_r by lia. lia.
  - rewrite Pos2Z.inj_succ.
    replace (Z.succ (Z.pos (digits2_pos p)) - 1) with (Z.succ (Z.pos (digits2_pos p) - 1)) by lia.
    rewrite !Z.pow_succ_r by lia. lia.
  - simpl. lia.
Qed.

Lemma Zdigits2_nonneg (z : Z) : 0 <= Zdigits2 z.
Proof. destruct z; simpl; lia. Qed.

Lemma Zdigits2_le (z t : Z) : 0 <= t -> Z.abs z < 2 ^ t -> Zdigits2 z <= t.
Proof.
  intros Ht Hz. destruct z as [|p|p]; simpl in *; [lia| |];
    pose proof (digits2_pos_bounds p) as [Hlo _];
    destruct (Z_le_gt_dec (Z.pos (digits2_pos p)) t) as [Hle|Hgt];
    try assumption;
    assert (2 ^ t <= 2 ^ (Z.pos (digits2_pos p) - 1))
      by (apply Z.pow_le_mono_r; lia); lia.
Qed.

Lemma Zdigits2_lt_pow (z : Z) : Z.abs z < 2 ^ Zdigits2 z.
Proof.
  destruct z as [|p|p]; simpl; [lia| |]; apply digits2_pos_bounds.
Qed.

Lemma Zdigits2_mono (a b : Z) : 0 <= a <= b -> Zdigits2 a <= Zdigits2 b.
Proof.
  intros H. apply Zdigits2_le; [apply Zdigits2_nonneg|].
  pose proof (Zdigits2_lt_pow b). lia.
Qed.

Lemma Zdigits2_succ (m : Z) : 0 <= m -> Zdigits2 (m + 1) <= Zdigits2 m + 1.
Proof.
  intros H. pose proof (Zdigits2_nonneg m).
  apply Zdigits2_le; [lia|].
  pose proof (Zdigits2_lt_pow m).
  rewrite Z.pow_add_r by lia. lia.
Qed.

Lemma Zdigits2_mul (p q : positive) :
  Z.pos (digits2_pos (p * q)) <= Z.pos (digits2_pos p) + Z.pos (digits2_pos q).
Proof.
  change (Zdigits2 (Z.pos (p * q)) <= Z.pos (digits2_pos p) + Z.pos (digits2_pos q)).
  apply Zdigits2_le; [lia|].
  rewrite Z.pow_add_r by lia.
  pose proof (digits2_pos_bounds p). pose proof (digits2_pos_bounds q).
  rewrite Pos2Z.inj_mul. simpl Z.abs. nia.
Qed.

Lemma digits2_pos_iter_xO (m d : positive) :
  Z.pos (digits2_pos (Pos.iter xO m d)) = Z.pos (digits2_pos m) + Z.pos d.
Proof.
  induction d as [|d IH] using Pos.peano_ind.
  - simpl. lia.
  - rewrite Pos.iter_succ. simpl digits2_pos. lia.
Qed.

(** *** Shifting right *)

Lemma shr_1_spec (mrs : shr_record) :
  0 <= shr_m mrs ->
  0 <= shr_m (shr_1 mrs)
  /\ Zdigits2 (shr_m (shr_1 mrs)) = Z.max 0 (Zdigits2 (shr_m mrs) - 1).
Proof.
  destruct mrs as [m r s]. cbn [shr_m]. intros Hm.
  destruct m as [|[p|p|]|p]; cbn [shr_1 shr_m Zdigits2 digits2_pos];
    rewrite ?Pos2Z.inj_succ; lia.
Qed.

Lemma iter_pos_shr_1 (d0 : Z) (p : positive) :
  forall n mrs,
    0 <= n ->
    0 <= shr_m mrs /\ Zdigits2 (shr_m mrs) = Z.max 0 (d0 - n) ->
    0 <= shr_m (iter_pos shr_1 p mrs)
    /\ Zdigits2 (shr_m (iter_pos shr_1 p mrs)) = Z.max 0 (d0 - (n + Z.pos p)).
Proof.
  assert (Hstep : forall n mrs, 0 <= n ->
            0 <= shr_m mrs /\ Zdigits2 (shr_m mrs) = Z.max 0 (d0 - n) ->
            0 <= shr_m (shr_1 mrs)
            /\ Zdigits2 (shr_m (shr_1 mrs)) = Z.max 0 (d0 - (n + 1))).
  { intros n mrs Hn [H0 Hd]. destruct (shr_1_spec mrs H0) as [H0' Hd'].
    split; [assumption|]. rewrite Hd', Hd. lia. }
  induction p as [p IH|p IH|]; intros n mrs Hn H; simpl.
  - apply (Hstep n) in H; [|assumption].
    apply (IH (n + 1)) in H; [|lia].
    apply (IH (n + 1 + Z.pos p)) in H; [|lia].
    replace (n + Z.pos p~1) with (n + 1 + Z.pos p + Z.pos p) by lia. exact H.
  - apply (IH n) in H; [|lia].
    apply (IH (n + Z.pos p)) in H; [|lia].
    replace (n + Z.pos p~0) with (n + Z.pos p + Z.pos p) by lia. exact H.
  - now apply Hstep.
Qed.

Lemma shr_m_of_loc (m : Z) (l : location) : shr_m (shr_record_of_loc m l) = m.
Proof. destruct l as [|[]]; reflexivity. Qed.

(** [shr_fexp] for binary64: the exponent becomes the larger of [e] and the
    canonical one, and the mantissa loses as many digits. *)
Lemma shr_fexp_spec (m e : Z) (l : location) :
  0 <= m ->
  let '(mrs, e') := shr_fexp prec emax m e l in
  0 <= shr_m mrs
  /\ e' = Z.max e (fexp prec emax (Zdigits2 m + e))
  /\ Zdigits2 (shr_m mrs) = Z.max 0 (Zdigits2 m - (e' - e)).
Proof.
  intros Hm. unfold shr_fexp, shr.
  destruct (fexp prec emax (Zdigits2 m + e) - e) as [|p|p] eqn:Hn.
  - rewrite shr_m_of_loc. repeat split; [assumption|lia|].
    pose proof (Zdigits2_nonneg m). lia.
  - destruct (iter_pos_shr_1 (Zdigits2 m) p 0 (shr_record_of_loc m l)) as [H0 Hd].
    + lia.
    + rewrite shr_m_of_loc. split; [assumption|]. pose proof (Zdigits2_nonneg m). lia.
    + repeat split; [assumption|lia|]. rewrite Hd. lia.
  - rewrite shr_m_of_loc. repeat split; [assumption|lia|].
    pose proof (Zdigits2_nonneg m). lia.
Qed.

Lemma round_nearest_even_bounds (m : Z) (l : location) :
  m <= round_nearest_even m l <= m + 1.
Proof.
  unfold round_nearest_even. destruct l as [|[]]; try lia.
  destruct (Z.even m); lia.
Qed.



Lemma binary_round_aux_bounded (sx : bool) (mx ex B : Z) (l : location) :
  0 <= mx -> Zdigits2 mx + ex <= B -> ex <= 971 -> -1074 <= B <= 1023 ->
  bounded_by (B + 1) (binary_round_aux prec emax sx mx ex l)
  /\ sign_of (binary_round_aux prec emax sx mx ex l) = Some sx.
Proof.
  intros Hm HB He HB'. unfold binary_round_aux.
  pose proof (shr_fexp_spec mx ex l Hm) as H1.
  destruct (shr_fexp prec emax mx ex l) as [mrs1 e1].
  destruct H1 as (H1m & H1e & H1d).
  set (m2 := round_nearest_even (shr_m mrs1) (loc_of_shr_record mrs1)).
  pose proof (round_nearest_even_bounds (shr_m mrs1) (loc_of_shr_record mrs1)) as Hr.
  fold m2 in Hr.
  assert (Hm2 : 0 <= m2) by lia.
  pose proof (shr_fexp_spec m2 e1 loc_Exact Hm2) as H2.
  destruct (shr_fexp prec emax m2 e1 loc_Exact) as [mrs2 e2].
  destruct H2 as (H2m & H2e & H2d).
  assert (Hd2 : Zdigits2 m2 <= Zdigits2 (shr_m mrs1) + 1).
  { transitivity (Zdigits2 (shr_m mrs1 + 1)).
    - apply Zdigits2_mono. lia.
    - now apply Zdigits2_succ. }
  pose proof (Zdigits2_nonneg mx) as Hdx.
  unfold fexp, SpecFloat.emin, prec, emax in *.
  destruct (shr_m mrs2) as [|p|p] eqn:Hp.
  - split; [exact I|reflexivity].
  - assert (Hpos : 0 < Zdigits2 (Z.pos p)) by (simpl; lia).
    destruct (Z.leb_spec e2 (1024 - 53)) as [Hle|Hgt].
    + split; [|reflexivity]. cbn [bounded_by].
      change (Z.pos (digits2_pos p)) with (Zdigits2 (Z.pos p)). lia.
    + exfalso. lia.
  - lia.
Qed.


Lemma bounded_by_weaken (B B' : Z) (f : spec_float) :
  B <= B' -> bounded_by B f -> bounded_by B' f.
Proof. destruct f; cbn [bounded_by]; auto. lia. Qed.

(** In the normal range nothing is rounded to zero. *)
Lemma binary_round_aux_nonzero (sx : bool) (mx ex : Z) (l : location) :
  0 < mx -> -1021 <= Zdigits2 mx + ex <= 1023 -> ex <= 971 ->
  finite_nonzero (binary_round_aux prec emax sx mx ex l).
Proof.
  intros Hm HB He. unfold binary_round_aux.
  assert (Hm0 : 0 <= mx) by lia.
  pose proof (shr_fexp_spec mx ex l Hm0) as H1.
  destruct (shr_fexp prec emax mx ex l) as [mrs1 e1].
  destruct H1 as (H1m & H1e & H1d).
  set (m2 := round_nearest_even (shr_m mrs1) (loc_of_shr_record mrs1)).
  pose proof (round_nearest_even_bounds (shr_m mrs1) (loc_of_shr_record mrs1)) as Hr.
  fold m2 in Hr.
  assert (Hm2 : 0 <= m2) by lia.
  pose proof (shr_fexp_spec m2 e1 loc_Exact Hm2) as H2.
  destruct (shr_fexp prec emax m2 e1 loc_Exact) as [mrs2 e2].
  destruct H2 as (H2m & H2e & H2d).
  assert (Hd2 : Zdigits2 m2 <= Zdigits2 (shr_m mrs1) + 1).
  { transitivity (Zdigits2 (shr_m mrs1 + 1)).
    - apply Zdigits2_mono. lia.
    - now apply Zdigits2_succ. }
  assert (Hd2' : Zdigits2 (shr_m mrs1) <= Zdigits2 m2)
    by (apply Zdigits2_mono; lia).
  assert (Hdx : 1 <= Zdigits2 mx) by (destruct mx; simpl; lia).
  unfold fexp, SpecFloat.emin, prec, emax in *.
  destruct (shr_m mrs2) as [|p|p] eqn:Hp.
  - exfalso. simpl in H2d. lia.
  - destruct (Z.leb_spec e2 (1024 - 53)) as [Hle|Hgt]; [exact I|].
    exfalso. lia.
  - lia.
Qed.

Lemma shl_align_spec (mx : positive) (ex ex' : Z) :
  let '(mz, ez) := shl_align mx ex ex' in
  Z.pos (digits2_pos mz) + ez = Z.pos (digits2_pos mx) + ex
  /\ ez = Z.min ex ex'.
Proof.
  unfold shl_align. destruct (ex' - ex) as [|d|d] eqn:Hd.
  - split; lia.
  - split; lia.
  - rewrite digits2_pos_iter_xO. split; lia.
Qed.

Lemma binary_round_bounded (sx : bool) (mx : positive) (ex B : Z) :
  Z.pos (digits2_pos mx) + ex <= B -> -1074 <= B <= 1023 ->
  bounded_by (B + 1) (binary_round prec emax sx mx ex)
  /\ sign_of (binary_round prec emax sx mx ex) = Some sx.
Proof.
  intros HB HB'. unfold binary_round.
  pose proof (shl_align_spec mx ex (fexp prec emax (Z.pos (digits2_pos mx) + ex))) as H.
  destruct (shl_align mx ex (fexp prec emax (Z.pos (digits2_pos mx) + ex))) as [mz ez].
  destruct H as [Hd He].
  apply binary_round_aux_bounded; try lia.
  - cbn [Zdigits2]. lia.
  - unfold fexp, SpecFloat.emin, prec, emax in *. lia.
Qed.

Lemma binary_round_nonzero (sx : bool) (mx : positive) (ex : Z) :
  -1021 <= Z.pos (digits2_pos mx) + ex <= 1023 ->
  finite_nonzero (binary_round prec emax sx mx ex).
Proof.
  intros HB. unfold binary_round.
  pose proof (shl_align_spec mx ex (fexp prec emax (Z.pos (digits2_pos mx) + ex))) as H.
  destruct (shl_align mx ex (fexp prec emax (Z.pos (digits2_pos mx) + ex))) as [mz ez].
  destruct H as [Hd He].
  apply binary_round_aux_nonzero; try lia.
  - cbn [Zdigits2]. lia.
  - unfold fexp, SpecFloat.emin, prec, emax in *. lia.
Qed.

Lemma binary_normalize_bounded (m e B : Z) (szero : bool) :
  Zdigits2 m + e <= B -> -1074 <= B <= 1023 ->
  bounded_by (B + 1) (binary_normalize prec emax m e szero).
Proof.
  intros HB HB'. destruct m as [|p|p]; simpl in *; [exact I| |];
    now apply binary_round_bounded.
Qed.

Lemma SFmul_bounded (Bx By : Z) (x y : spec_float) :
  bounded_by Bx x -> bounded_by By y ->
  -1074 <= Bx + By <= 973 ->
  bounded_by (Bx + By + 1) (SFmul prec emax x y).
Proof.
  intros Hx Hy HB.
  destruct x as [sx|sx| |sx mx ex], y as [sy|sy| |sy my ey];
    cbn [bounded_by] in Hx, Hy; try contradiction; try exact I.
  unfold SFmul.
  apply binary_round_aux_bounded.
  - lia.
  - cbn [Zdigits2]. pose proof (Zdigits2_mul mx my). lia.
  - lia.
  - lia.
Qed.

Lemma SFadd_bounded (B : Z) (x y : spec_float) :
  bounded_by B x -> bounded_by B y ->
  -1074 <= B <= 1021 ->
  bounded_by (B + 2) (SFadd prec emax x y).
Proof.
  intros Hx Hy HB.
  destruct x as [sx|sx| |sx mx ex], y as [sy|sy| |sy my ey];
    cbn [bounded_by] in Hx, Hy; try contradiction.
  - destruct sx, sy; exact I.
  - cbn [SFadd bounded_by]. lia.
  - cbn [SFadd bounded_by]. lia.
  - unfold SFadd.
    pose proof (shl_align_spec mx ex (Z.min ex ey)) as H1.
    pose proof (shl_align_spec my ey (Z.min ex ey)) as H2.
    destruct (shl_align mx ex (Z.min ex ey)) as [mx' ex'].
    destruct (shl_align my ey (Z.min ex ey)) as [my' ey'].
    destruct H1 as [H1d H1e]. destruct H2 as [H2d H2e].
    cbn [fst].
    replace (B + 2) with (B + 1 + 1) by lia.
    apply binary_normalize_bounded; [|lia].
    set (ez := Z.min ex ey) in *.
    assert (Hdx : Z.pos (digits2_pos mx') <= B - ez) by lia.
    assert (Hdy : Z.pos (digits2_pos my') <= B - ez) by lia.
    assert (H0 : 0 <= B - ez) by lia.
    enough (Zdigits2 (cond_Zopp sx (Z.pos mx') + cond_Zopp sy (Z.pos my'))
            <= B - ez + 1) by lia.
    apply Zdigits2_le; [lia|].
    rewrite Z.pow_add_r by lia.
    pose proof (digits2_pos_bounds mx') as [_ Hx'].
    pose proof (digits2_pos_bounds my') as [_ Hy'].
    assert (2 ^ Z.pos (digits2_pos mx') <= 2 ^ (B - ez))
      by (apply Z.pow_le_mono_r; lia).
    assert (2 ^ Z.pos (digits2_pos my') <= 2 ^ (B - ez))
      by (apply Z.pow_le_mono_r; lia).
    destruct sx, sy; unfold cond_Zopp; lia.
Qed.

Lemma of_uint63_bounded (n : int) :
  bounded_by 64 (Prim2SF (of_uint63 n)).
Proof.
  rewrite FloatAxioms.of_uint63_spec.
  change 64 with (63 + 1). apply binary_normalize_bounded; [|lia].
  pose proof (to_Z_bounded n) as Hn. change wB with (2 ^ 63) in Hn.
  rewrite Z.add_0_r. apply Zdigits2_le; lia.
Qed.

Lemma of_uint63_positive (n : int) :
  0 < to_Z n ->
  exists m e, Prim2SF (of_uint63 n) = S754_finite false m e.
Proof.
  intros Hpos. rewrite FloatAxioms.of_uint63_spec.
  pose proof (to_Z_bounded n) as Hn. change wB with (2 ^ 63) in Hn.
  destruct (to_Z n) as [|p|p] eqn:Hp; try lia.
  cbn [binary_normalize].
  assert (Hd : 1 <= Z.pos (digits2_pos p) <= 63).
  { split; [lia|]. change (Zdigits2 (Z.pos p) <= 63). apply Zdigits2_le; lia. }
  pose proof (binary_round_nonzero false p 0) as Hnz.
  destruct (binary_round_bounded false p 0 63) as [_ Hs]; [lia|lia|].
  destruct (binary_round prec emax false p 0) as [s|s| |s m e];
    try (exfalso; apply Hnz; lia).
  simpl in Hs. inversion Hs. eauto.
Qed.

Lemma of_uint63_zero (n : int) :
  to_Z n = 0 -> Prim2SF (of_uint63 n) = S754_zero false.
Proof. intros H. now rewrite FloatAxioms.of_uint63_spec, H. Qed.

(** A float whose magnitude is at most 745 is a zero or finite and below
    [2^10]. *)
Lemma leb_745_bounded (v : float) :
  PrimFloat.leb (PrimFloat.abs v) 745 = true -> bounded_by 10 (Prim2SF v).
Proof.
  rewrite FloatAxioms.leb_spec, FloatAxioms.abs_spec.
  pose proof (Prim2SF_valid v) as Hv.
  replace (Prim2SF 745) with (S754_finite false 6553089301544960 (-43))
    by (vm_compute; reflexivity).
  destruct (Prim2SF v) as [s|s| |s m e]; cbn [SFabs]; unfold SFleb;
    cbn [SFcompare bounded_by]; try discriminate; [auto|].
  intros Hle. cbn [valid_binary] in Hv. unfold bounded, canonical_mantissa in Hv.
  apply andb_prop in Hv. destruct Hv as [Hc _]. apply Z.eqb_eq in Hc.
  unfold fexp, SpecFloat.emin, prec, emax in Hc.
  destruct (Z.compare_spec e (-43)); try discriminate; lia.
Qed.

(** *** The AIC expression *)

Lemma Prim2SF_of_len_cases (n : int) :
  Prim2SF (of_uint63 n) = S754_zero false
  \/ exists m e, Prim2SF (of_uint63 n) = S754_finite false m e.
Proof.
  pose proof (to_Z_bounded n) as Hn.
  destruct (Z.eq_dec (to_Z n) 0) as [H0|Hne].
  - left. now apply of_uint63_zero.
  - right. apply of_uint63_positive. lia.
Qed.

Lemma twice_bounded (n : int) :
  bounded_by 67 (SF64mul (Prim2SF 2) (Prim2SF (of_uint63 n))).
Proof.
  change 67 with (2 + 64 + 1). apply SFmul_bounded.
  - vm_compute. discriminate.
  - apply of_uint63_bounded.
  - lia.
Qed.

(** With a logarithm that is NaN, [+Inf] or of magnitude at most 745, the
    AIC is not [-Inf]. *)
Lemma aic_expr_not_neg_infinity (n : int) (L : float64) :
  L = nan \/ L = infinity \/ PrimFloat.leb (PrimFloat.abs L) 745 = true ->
  (of_uint63 n * L + 2 * of_uint63 n)%float <> neg_infinity.
Proof.
  intros HL Habs. apply (f_equal Prim2SF) in Habs.
  rewrite FloatAxioms.add_spec, !FloatAxioms.mul_spec in Habs.
  change (Prim2SF neg_infinity) with (S754_infinity true) in Habs.
  pose proof (twice_bounded n) as HT.
  pose proof (of_uint63_bounded n) as HN.
  destruct HL as [->|[->|HL]].
  - change (Prim2SF nan) with S754_nan in Habs.
    destruct (Prim2SF (of_uint63 n)); discriminate.
  - change (Prim2SF infinity) with (S754_infinity false) in Habs.
    destruct (Prim2SF_of_len_cases n) as [Hz|(m & e & Hf)].
    + rewrite Hz in Habs. discriminate.
    + rewrite Hf in Habs, HT.
      destruct (SF64mul (Prim2SF 2) (S754_finite false m e));
        cbn [bounded_by] in HT; try contradiction; discriminate.
  - apply leb_745_bounded in HL.
    pose proof (SFmul_bounded 64 10 _ _ HN HL) as HP.
    assert (HS : bounded_by (75 + 2)
                   (SF64add (SF64mul (Prim2SF (of_uint63 n)) (Prim2SF L))
                            (SF64mul (Prim2SF 2) (Prim2SF (of_uint63 n))))).
    { apply SFadd_bounded; [apply HP; lia| |lia].
      revert HT. apply bounded_by_weaken. lia. }
    rewrite Habs in HS. exact HS.
Qed.

(** With a logarithm that is [-Inf] and at least one feature, the AIC is
    [-Inf]. *)
Lemma aic_expr_neg_infinity (n : int) :
  0 < to_Z n ->
  (of_uint63 n * neg_infinity + 2 * of_uint63 n)%float = neg_infinity.
Proof.
  intros Hpos. apply Prim2SF_inj.
  rewrite FloatAxioms.add_spec, !FloatAxioms.mul_spec.
  change (Prim2SF neg_infinity) with (S754_infinity true).
  pose proof (twice_bounded n) as HT.
  destruct (of_uint63_positive n Hpos) as (m & e & Hf).
  rewrite Hf in *.
  destruct (SF64mul (Prim2SF 2) (S754_finite false m e));
    cbn [bounded_by] in HT; try contradiction; reflexivity.
Qed.

Lemma to_Z_of_len {A : Type} (s : list A) :
  len s < 2 ^ 63 -> to_Z (Uint63.of_Z (len s)) = len s.
Proof.
  intros H. rewrite of_Z_spec. change wB with (2 ^ 63).
  apply Z.mod_small. unfold len in *. lia.
Qed.

Section DegenerateFit.

Context {R : Regression} {M : GoMath}.
Hypothesis HLog : LogSpec M.

Lemma fitModel_no_features (y : list float64) (data : list (list float64))
    (mse aic : float64) :
  fitModel y [] data = Some (mse, aic) -> mse = nan.
Proof.
  unfold fitModel, trained_regression. cbn.
  destruct (Run (SetObserved "mv" zero_regression)) as [e r].
  cbn. intros H. inversion H. reflexivity.
Qed.

Lemma fitModel_degenerate_iff (y : list float64) (features : list Z)
    (data : list (list float64)) (mse aic : float64) :
  len features < 2 ^ 63 ->
  fitModel y features data = Some (mse, aic) ->
  PrimFloat.eqb mse 0 = true <-> aic = neg_infinity.
Proof.
  intros Hlen Hfit.
  pose proof (fitModel_aic_eq _ _ _ _ _ Hfit) as Haic.
  unfold float_of_len in Haic. split.
  - intros Hz. rewrite (Log_zero M HLog _ Hz) in Haic. rewrite Haic.
    apply aic_expr_neg_infinity. rewrite to_Z_of_len by assumption.
    destruct features as [|idx features]; [|unfold len; simpl length; lia].
    apply fitModel_no_features in Hfit. subst mse. discriminate.
  - intros Hinf. destruct (PrimFloat.eqb mse 0) eqn:Hz; [reflexivity|].
    exfalso. rewrite Haic in Hinf. revert Hinf.
    apply aic_expr_not_neg_infinity. exact (Log_nonzero M HLog _ Hz).
Qed.

(** C7: when the indexing is in range (so that an MSE is computed at all)
    the fit returns a pair, without a failure for MSE = 0, and its AIC is
    [-Inf] exactly when its MSE is zero. *)
Theorem fitModel_degenerate_fit (y : list float64) (features : list Z)
    (data : list (list float64)) :
  Forall (fun idx => Forall (fun row => 0 <= idx < len row) data) features ->
  (length features <= length y)%nat ->
  len features < 2 ^ 63 ->
  exists mse aic,
    fitModel y features data = Some (mse, aic)
    /\ (PrimFloat.eqb mse 0 = true <-> aic = neg_infinity).
Proof.
  intros Hcols Hrows Hlen.
  destruct (fitModel_total y features data Hcols Hrows) as (mse & aic & Hfit).
  exists mse, aic. split; [exact Hfit|].
  exact (fitModel_degenerate_iff y features data mse aic Hlen Hfit).
Qed.

End DegenerateFit.

Lemma sample_log_spec : LogSpec Sample.math.
Proof.
  constructor; intros x Hx; cbn [Log Sample.math]; unfold Sample.log; rewrite Hx.
  - reflexivity.
  - destruct (PrimFloat.ltb x 0); [now left|].
    destruct (PrimFloat.eqb x infinity); [right; now left|].
    destruct (negb (PrimFloat.eqb x x)); [now left|].
    destruct (Z.frexp x) as [m e].
    match goal with
    | |- context [if ?c then _ else _] => destruct c eqn:Hc
    end; [right; right; exact Hc|now left].
Qed.

Lemma fitModel_degenerate_fit_witness :
  exists mse aic,
    @fitModel Sample.intercept_only Sample.math Sample.flat_y [0; 1; 2; 3]
      Sample.flat_table = Some (mse, aic)
    /\ PrimFloat.eqb mse 0 = true
    /\ aic = neg_infinity.
Proof.
  assert (Hcols : Forall (fun idx =>
                     Forall (fun row : list float64 => 0 <= idx < len row)
                            Sample.flat_table) [0; 1; 2; 3])
    by (unfold Sample.flat_table, Sample.table; cbn [map firstn app];
        repeat (first [apply Forall_nil | apply Forall_cons]);
        unfold len; cbn [length]; lia).
  assert (Hrows : (length [0; 1; 2; 3] <= length Sample.flat_y)%nat)
    by (simpl; lia).
  assert (Hlen : len [0; 1; 2; 3] < 2 ^ 63) by reflexivity.
  destruct (@fitModel_degenerate_fit Sample.intercept_only Sample.math
              sample_log_spec Sample.flat_y [0; 1; 2; 3] Sample.flat_table
              Hcols Hrows Hlen) as (mse & aic & Hfit & Hiff).
  exists mse, aic. split; [exact Hfit|].
  assert (Hz : PrimFloat.eqb mse 0 = true).
  { vm_compute in Hfit. inversion Hfit. reflexivity. }
  split; [exact Hz|]. exact (proj1 Hiff Hz).
Defined.

(** * Further properties *)

(** ** [generateCombinations] outside [1 <= k <= n] *)

Lemma wrap_is_int (z : Z) : GoInt.is_int (GoInt.wrap z).
Proof.
  unfold GoInt.is_int, GoInt.min_int, GoInt.max_int, GoInt.wrap.
  pose proof (Z.mod_pos_bound (z + 2 ^ 63) (2 ^ 64)). lia.
Qed.

Lemma wrap_pred_min : GoInt.wrap (GoInt.min_int - 1) = GoInt.max_int.
Proof. reflexivity. Qed.

Lemma flat_map_nil {A B : Type} (f : A -> list B) (l : list A) :
  (forall a, In a l -> f a = []) -> flat_map f l = [].
Proof.
  induction l as [|a l IH]; intros H; simpl; [reflexivity|].
  rewrite (H a (or_introl eq_refl)), IH; [reflexivity|].
  intros b Hb. apply H. now right.
Qed.

(** A count that is negative, or larger than what is left of [0, n), never
    reaches the base case: the decrement of a negative [k] wraps to the
    largest [int], which no depth of recursion reaches. *)
Lemma enum_unreachable (n : Z) (fuel : nat) :
  n <= GoInt.max_int ->
  forall k index,
    GoInt.is_int k -> 0 <= index ->
    k < 0 \/ (0 < k /\ n - index < k) ->
    enum n fuel k index = [].
Proof.
  intros Hn. induction fuel as [|fuel IH]; intros k index Hint Hidx Hk.
  - unfold enum. simpl. destruct (k =? 0) eqn:E; [|reflexivity].
    apply Z.eqb_eq in E. lia.
  - rewrite enum_step by lia. apply flat_map_nil.
    intros i Hi. apply loop_range_In in Hi.
    rewrite IH; [reflexivity|apply wrap_is_int|lia|].
    unfold GoInt.is_int, GoInt.min_int, GoInt.max_int in *.
    destruct (Z.eq_dec k (- 2 ^ 63)) as [->|Hmin].
    + right. change (GoInt.wrap (- 2 ^ 63 - 1)) with (2 ^ 63 - 1). lia.
    + rewrite wrap_in_range
        by (unfold GoInt.is_int, GoInt.min_int, GoInt.max_int; lia).
      lia.
Qed.

Lemma binomial_pos (n : nat) : forall k, (k <= n)%nat -> (0 < binomial n k)%nat.
Proof.
  induction n as [|n IH]; intros [|k] H; simpl; try lia.
  specialize (IH k). lia.
Qed.

(** X1: the result is empty exactly when [k] is negative or a positive [k]
    exceeds [n]. *)
Theorem generateCombinations_empty_iff (n k : Z) :
  GoInt.is_int n -> GoInt.is_int k ->
  generateCombinations n k = [] <-> k < 0 \/ (0 < k /\ n < k).
Proof.
  intros Hn Hk. split.
  - intros Hnil.
    destruct (Z_lt_le_dec k 0) as [Hneg|Hpos]; [now left|].
    destruct (Z.eq_dec k 0) as [->|Hk0].
    { change (enum n (Z.to_nat n) 0 0 = []) in Hnil.
      rewrite enum_zero in Hnil. discriminate. }
    right. split; [lia|].
    destruct (Z_lt_le_dec n k) as [Hlt|Hle]; [assumption|exfalso].
    apply (f_equal (@length _)) in Hnil.
    unfold generateCombinations in Hnil. change (length (enum n (Z.to_nat n) k 0) = length (@nil (list Z))) in Hnil.
    rewrite (enum_length n (Z.to_nat n) (Z.to_nat n) k 0) in Hnil;
      [|unfold GoInt.is_int in Hk; lia|f_equal; lia|lia].
    pose proof (binomial_pos (Z.to_nat n) (Z.to_nat k)). simpl in Hnil. lia.
  - intros Hcase. unfold generateCombinations.
    change (enum n (Z.to_nat n) k 0 = []).
    apply enum_unreachable; [unfold GoInt.is_int in Hn; lia|assumption|lia|].
    destruct Hcase as [H|[H1 H2]]; [now left|right; lia].
Qed.

Lemma generateCombinations_empty_iff_witness :
  GoInt.is_int 5 /\ GoInt.is_int (-2)
  /\ (generateCombinations 5 (-2) = [] <-> -2 < 0 \/ (0 < -2 /\ 5 < -2)).
Proof.
  assert (H1 : GoInt.is_int 5)
    by (unfold GoInt.is_int, GoInt.min_int, GoInt.max_int; lia).
  assert (H2 : GoInt.is_int (-2))
    by (unfold GoInt.is_int, GoInt.min_int, GoInt.max_int; lia).
  exact (conj H1 (conj H2 (generateCombinations_empty_iff 5 (-2) H1 H2))).
Defined.

(** X2: a call of the helper keeps what [*combinations] holds and appends,
    in lexicographic order, the current prefix extended by each strictly
    increasing [k]-sequence over [index, n). *)
Theorem generateCombinationsHelper_appends (fuel : nat) (n k index : Z)
    (combination : list Z) (combinations : list (list Z)) :
  0 <= k -> GoInt.is_int k -> (Z.to_nat (n - index) <= fuel)%nat ->
  exists added,
    generateCombinationsHelper fuel n k index combination combinations
    = combinations ++ map (app combination) added
    /\ StronglySorted lex_lt added
    /\ (forall t, In t added <-> len t = k /\ increasing_in index n t).
Proof.
  intros Hk Hint Hfuel. unfold GoInt.is_int in Hint.
  exists (enum n fuel k index). split; [apply helper_prefix|]. split.
  - apply (enum_sorted n fuel (Z.to_nat (n - index))); [lia|reflexivity|assumption].
  - intros t. apply (enum_In n fuel (Z.to_nat (n - index))); [lia|reflexivity|assumption].
Qed.

Lemma generateCombinationsHelper_appends_witness :
  exists added,
    generateCombinationsHelper 3 4 2 1 [0] [[9]] = [[9]] ++ map (app [0]) added
    /\ added = [[1; 2]; [1; 3]; [2; 3]].
Proof.
  assert (H1 : 0 <= 2) by lia.
  assert (H2 : GoInt.is_int 2)
    by (unfold GoInt.is_int, GoInt.min_int, GoInt.max_int; lia).
  assert (H3 : (Z.to_nat (4 - 1) <= 3)%nat) by (simpl; lia).
  destruct (generateCombinationsHelper_appends 3 4 2 1 [0] [[9]] H1 H2 H3)
    as (added & Heq & _ & _).
  exists added. split; [exact Heq|].
  apply (app_inv_head [[9]]) in Heq. simpl in Heq.
  revert Heq. generalize added. clear.
  intros added H.
  destruct added as [|a [|b [|c [|d added]]]]; try discriminate.
  simpl in H. injection H as -> -> ->. reflexivity.
Defined.

Lemma increasing_in_length (lo hi : Z) (c : list Z) :
  increasing_in lo hi c -> len c <= Z.max 0 (hi - lo).
Proof.
  revert lo. induction c as [|x c IH]; intros lo; unfold len; simpl length;
    [lia|].
  intros [Hx Hc]. apply IH in Hc. unfold len in Hc. lia.
Qed.

Lemma increasing_in_full (lo hi : Z) (c : list Z) :
  increasing_in lo hi c -> len c = hi - lo -> c = loop_range lo hi.
Proof.
  revert lo. induction c as [|x c IH]; intros lo Hinc Hlen;
    unfold len in Hlen; simpl length in Hlen.
  - rewrite loop_range_nil by lia. reflexivity.
  - destruct Hinc as [Hx Hc].
    pose proof (increasing_in_length _ _ _ Hc) as Hle. unfold len in Hle.
    assert (x = lo) by lia. subst x.
    rewrite loop_range_cons by lia. f_equal.
    apply IH; [assumption|]. unfold len. lia.
Qed.

(** X3: for [k = n] there is one subset, all of [0, ..., n-1]: the worker
    for the largest size fits one model. *)
Theorem generateCombinations_all (n : Z) :
  0 <= n -> GoInt.is_int n ->
  generateCombinations n n = [loop_range 0 n].
Proof.
  intros Hn Hint.
  pose proof (generateCombinations_In n n (loop_range 0 n) Hn Hint) as Hin.
  assert (Hlen : length (generateCombinations n n) = 1%nat).
  { unfold generateCombinations. change (length (enum n (Z.to_nat n) n 0) = 1%nat).
    rewrite (enum_length n (Z.to_nat n) (Z.to_nat n) n 0);
      [apply binomial_diag|unfold GoInt.is_int in Hint; lia|f_equal; lia|lia]. }
  destruct (generateCombinations n n) as [|c [|d l]] eqn:E; try discriminate.
  f_equal.
  assert (Hc : In c (generateCombinations n n)) by (rewrite E; now left).
  apply (generateCombinations_In n n c Hn Hint) in Hc. destruct Hc as [Hl Hinc].
  apply increasing_in_full; [assumption|lia].
Qed.

Lemma generateCombinations_all_witness :
  0 <= 5 /\ GoInt.is_int 5 /\ generateCombinations 5 5 = [[0; 1; 2; 3; 4]].
Proof.
  assert (H1 : 0 <= 5) by lia.
  assert (H2 : GoInt.is_int 5)
    by (unfold GoInt.is_int, GoInt.min_int, GoInt.max_int; lia).
  exact (conj H1 (conj H2 (generateCombinations_all 5 H1 H2))).
Defined.

(** ** [fitModel]: when it returns, and what *)

Section FitModelMore.

Context {R : Regression} {M : GoMath}.

Lemma feature_column_in_range (data : list (list float64)) (idx : Z)
    (x : list float64) :
  feature_column data idx = Some x ->
  Forall (fun row => 0 <= idx < len row) data.
Proof.
  intros H. apply feature_column_spec in H.
  induction H as [|row v data x Hv _ IH]; constructor; [|assumption].
  exact (at_index_Some _ _ _ Hv).
Qed.

Lemma fitModel_in_range (y : list float64) (features : list Z)
    (data : list (list float64)) (mse aic : float64) :
  fitModel y features data = Some (mse, aic) ->
  Forall (fun idx => Forall (fun row => 0 <= idx < len row) data) features
  /\ (length features <= length y)%nat.
Proof.
  intros H. apply fitModel_unfold in H.
  destruct H as (xs & r & f & r' & Ht & _).
  destruct (trained_regression_spec _ _ _ _ _ Ht) as [Hcols Hlen].
  split; [|rewrite (Forall2_length Hcols); exact Hlen].
  clear - Hcols. induction Hcols as [|idx x features xs Hx _ IH];
    constructor; [|assumption].
  exact (feature_column_in_range _ _ _ Hx).
Qed.

(** X4: [fitModel] returns a pair exactly when every selected column
    exists in every row of the table and there are at least as many
    responses as selected features; otherwise it panics. *)
Theorem fitModel_returns_iff (y : list float64) (features : list Z)
    (data : list (list float64)) :
  (exists mse aic, fitModel y features data = Some (mse, aic))
  <-> Forall (fun idx => Forall (fun row => 0 <= idx < len row) data) features
      /\ (length features <= length y)%nat.
Proof.
  split.
  - intros (mse & aic & H). exact (fitModel_in_range _ _ _ _ _ H).
  - intros [Hcols Hlen]. now apply fitModel_total.
Qed.

(** X5: with no feature selected nothing is indexed and nothing is
    predicted; the MSE is 0/0 and, as [Log(NaN)] is NaN, so is the AIC. *)
Theorem fitModel_without_features (y : list float64)
    (data : list (list float64)) :
  Log nan = nan ->
  fitModel y [] data = Some (nan, nan).
Proof.
  intros HLog. unfold fitModel, trained_regression. cbn.
  destruct (Run (SetObserved "mv" zero_regression)) as [e r]. cbn.
  match goal with
  | |- context [Log ?v] => change (Log v) with (Log nan)
  end.
  rewrite HLog. reflexivity.
Qed.

(** *** The sign of the MSE *)

Lemma binary_round_aux_sign (sx : bool) (mx ex : Z) (l : location) :
  sign_of (binary_round_aux prec emax sx mx ex l) = Some sx
  \/ sign_of (binary_round_aux prec emax sx mx ex l) = None.
Proof.
  unfold binary_round_aux.
  destruct (shr_fexp prec emax mx ex l) as [mrs1 e1].
  destruct (shr_fexp prec emax _ e1 loc_Exact) as [mrs2 e2].
  destruct (shr_m mrs2); [now left| |now right].
  destruct (e2 <=? emax - prec); now left.
Qed.

Lemma binary_round_aux_not_negative (mx ex : Z) (l : location) :
  not_negative (binary_round_aux prec emax false mx ex l).
Proof.
  unfold not_negative.
  destruct (binary_round_aux_sign false mx ex l) as [H|H]; rewrite H; discriminate.
Qed.

Lemma SFadd_not_negative (a b : spec_float) :
  not_negative a -> not_negative b -> not_negative (SFadd prec emax a b).
Proof.
  unfold not_negative.
  destruct a as [[|]|[|]| |[|] ma ea], b as [[|]|[|]| |[|] mb eb];
    cbn [sign_of SFadd]; intros Ha Hb; try congruence; try discriminate.
  cbn [cond_Zopp]. cbn [Z.add binary_normalize]. unfold binary_round.
  destruct (shl_align _ _ _) as [mz ez].
  apply binary_round_aux_not_negative.
Qed.

Lemma SFdiv_not_negative (a b : spec_float) :
  not_negative a ->
  b = S754_zero false \/ (exists m e, b = S754_finite false m e) ->
  not_negative (SFdiv prec emax a b).
Proof.
  unfold not_negative. intros Ha [->|(m & e & ->)];
    destruct a as [[|]|[|]| |[|] ma ea];
    cbn [sign_of SFdiv xorb] in *; try congruence; try discriminate.
  destruct (SFdiv_core_binary prec emax (Z.pos ma) ea (Z.pos m) e) as [[mz ez] lz].
  apply binary_round_aux_not_negative.
Qed.

Lemma not_negative_ltb_zero (v : float64) :
  not_negative (Prim2SF v) -> PrimFloat.ltb v 0 = false.
Proof.
  rewrite FloatAxioms.ltb_spec. change (Prim2SF 0) with (S754_zero false).
  unfold not_negative.
  destruct (Prim2SF v) as [[|]|[|]| |[|] m e]; cbn; congruence.
Qed.

Lemma sum_squares_not_negative (y : list float64) (xs : list (list float64)) :
  (forall x, not_negative (Prim2SF (Pow x 2))) ->
  forall i0 f r f' r',
    not_negative (Prim2SF f) ->
    foldMi (fun '(f, r) i row =>
              let '((yPred, _), r) := Predict row r in
              yi <- at_index y i ;;
              Some ((f + Pow (yi - yPred) 2)%float, r))
           i0 xs (f, r) = Some (f', r') ->
    not_negative (Prim2SF f').
Proof.
  intros HPow. induction xs as [|row xs IH]; intros i0 f r f' r' Hf; simpl.
  - intros H. inversion H. now subst.
  - destruct (Predict row r) as [[yPred e] r1].
    intros H. apply bind_Some in H. destruct H as ([f1 r2] & H1 & H).
    apply bind_Some in H1. destruct H1 as (yi & _ & H1). inversion H1; subst f1 r2.
    apply (IH _ _ _ _ _) in H; [assumption|].
    rewrite FloatAxioms.add_spec. apply SFadd_not_negative; [assumption|apply HPow].
Qed.

(** X6: the MSE is never negative (it is NaN, a zero, positive or [+Inf]),
    provided squaring yields no negative number. *)
Theorem fitModel_mse_not_negative (y : list float64) (features : list Z)
    (data : list (list float64)) (mse aic : float64) :
  (forall x, not_negative (Prim2SF (Pow x 2))) ->
  fitModel y features data = Some (mse, aic) ->
  PrimFloat.ltb mse 0 = false.
Proof.
  intros HPow H. apply fitModel_unfold in H.
  destruct H as (xs & r & f & r' & _ & Hs & -> & _).
  apply not_negative_ltb_zero.
  rewrite FloatAxioms.div_spec. apply SFdiv_not_negative.
  - apply (sum_squares_not_negative y xs HPow 0 0%float (snd (Run r)) f r');
      [|exact Hs].
    cbn. discriminate.
  - unfold float_of_len. apply Prim2SF_of_len_cases.
Qed.

(** X7: for a logarithm of the MSE that is finite (of magnitude at most
    745, as for every positive finite MSE) the AIC is finite: the
    expression does not overflow, whatever the number of features. *)
Theorem fitModel_aic_finite (y : list float64) (features : list Z)
    (data : list (list float64)) (mse aic : float64) :
  fitModel y features data = Some (mse, aic) ->
  PrimFloat.leb (PrimFloat.abs (Log mse)) 745 = true ->
  PrimFloat.ltb (PrimFloat.abs aic) infinity = true.
Proof.
  intros Hfit HL. rewrite (fitModel_aic_eq _ _ _ _ _ Hfit).
  unfold float_of_len. set (n := Uint63.of_Z (len features)).
  apply leb_745_bounded in HL.
  pose proof (SFmul_bounded 64 10 _ _ (of_uint63_bounded n) HL) as HP.
  assert (HS : bounded_by (75 + 2)
                 (SF64add (SF64mul (Prim2SF (of_uint63 n)) (Prim2SF (Log mse)))
                          (SF64mul (Prim2SF 2) (Prim2SF (of_uint63 n))))).
  { apply SFadd_bounded; [apply HP; lia| |lia].
    generalize (twice_bounded n). apply bounded_by_weaken. lia. }
  rewrite FloatAxioms.ltb_spec, FloatAxioms.abs_spec, FloatAxioms.add_spec,
    !FloatAxioms.mul_spec.
  change (Prim2SF infinity) with (S754_infinity false).
  destruct (SF64add _ _) as [s|s| |s m e]; cbn [bounded_by] in HS;
    try contradiction; reflexivity.
Qed.

End FitModelMore.

Lemma sample_pow_not_negative (x : float64) :
  not_negative (Prim2SF (Sample.pow x 2)).
Proof.
  unfold Sample.pow.
  change (PrimFloat.eqb 2 0) with false. change (PrimFloat.eqb 2 1) with false.
  change (PrimFloat.eqb 2 2) with true. cbn iota.
  rewrite FloatAxioms.mul_spec. unfold not_negative.
  destruct (Prim2SF x) as [[|]|[|]| |[|] m e]; cbn [SF64mul SFmul xorb sign_of];
    try discriminate;
    destruct (binary_round_aux_sign false (Z.pos (m * m)) (e + e) loc_Exact)
      as [H|H]; rewrite H; discriminate.
Qed.

Lemma fitModel_returns_iff_witness :
  (exists mse aic,
      @fitModel Sample.intercept_only Sample.math [10; 12]%float [0; 1; 2; 3]
        Sample.short_table = Some (mse, aic))
  <-> Forall (fun idx =>
                Forall (fun row : list float64 => 0 <= idx < len row)
                       Sample.short_table) [0; 1; 2; 3]
      /\ (length [0; 1; 2; 3] <= length [10; 12]%float)%nat.
Proof.
  exact (@fitModel_returns_iff Sample.intercept_only Sample.math
           [10; 12]%float [0; 1; 2; 3] Sample.short_table).
Defined.

Lemma fitModel_without_features_witness :
  Sample.log nan = nan
  /\ @fitModel Sample.intercept_only Sample.math Sample.y [] Sample.table
     = Some (nan, nan).
Proof.
  assert (H : @Log Sample.math nan = nan) by reflexivity.
  split; [exact H|].
  exact (@fitModel_without_features Sample.intercept_only Sample.math
           Sample.y Sample.table H).
Defined.

Lemma fitModel_mse_not_negative_witness :
  exists mse aic,
    @fitModel Sample.intercept_only Sample.math Sample.y [0; 1; 2; 3] Sample.table
    = Some (mse, aic)
    /\ PrimFloat.ltb mse 0 = false.
Proof.
  destruct fitModel_sample_value as (aic & H & _).
  exists 137.5%float, aic. split; [exact H|].
  exact (@fitModel_mse_not_negative Sample.intercept_only Sample.math
           Sample.y [0; 1; 2; 3] Sample.table _ _ sample_pow_not_negative H).
Defined.

Lemma fitModel_aic_finite_witness :
  exists mse aic,
    @fitModel Sample.intercept_only Sample.math Sample.y [0; 1; 2; 3] Sample.table
    = Some (mse, aic)
    /\ PrimFloat.ltb (PrimFloat.abs aic) infinity = true.
Proof.
  destruct fitModel_sample_value as (aic & H & _).
  exists 137.5%float, aic. split; [exact H|].
  refine (@fitModel_aic_finite Sample.intercept_only Sample.math
            Sample.y [0; 1; 2; 3] Sample.table _ _ H _).
  vm_compute. reflexivity.
Defined.

(** ** The worker: panics and the shape of its result *)

Section WorkerMore.

Context {R : Regression} {M : GoMath}.
Variables (y : list float64) (data : list (list float64)).

Lemma consider_panics (best : result) (c : list Z) :
  consider y data best c = None <-> fitModel y c data = None.
Proof.
  unfold consider. destruct (fitModel y c data) as [[mse aic]|]; simpl;
    split; intros H; try discriminate; reflexivity.
Qed.

Lemma foldM_consider_panics (cs : list (list Z)) :
  forall best,
    foldM (consider y data) cs best = None
    <-> exists c, In c cs /\ fitModel y c data = None.
Proof.
  induction cs as [|c cs IH]; intros best; simpl.
  - split; [discriminate|]. intros (c & [] & _).
  - destruct (consider y data best c) as [b'|] eqn:Hc; simpl.
    + rewrite IH. split.
      * intros (c' & Hin & Hf). exists c'. auto.
      * intros (c' & [<-|Hin] & Hf); [|eauto].
        apply (consider_panics best) in Hf. rewrite Hf in Hc. discriminate.
    + split; [|reflexivity]. intros _. exists c. split; [now left|].
      now apply (consider_panics best).
Qed.

(** X8: the worker panics exactly when the fit of one of its subsets
    does; a single subset that cannot be indexed loses the whole size. *)
Theorem worker_panics_iff (n size : Z) :
  worker y data n size = None
  <-> exists c, In c (generateCombinations n size) /\ fitModel y c data = None.
Proof. apply foldM_consider_panics. Qed.

(** X9: the result of a worker is the initial sentinel, or its fields
    belong together: the features are one of the generated subsets
    (strictly increasing, of the requested size, within [0, n)), the MSE
    and the AIC are what [fitModel] returns for them, and the AIC is below
    [+Inf]. *)
Theorem worker_result_shape (n size : Z) (r : result) :
  0 <= size -> GoInt.is_int size ->
  worker y data n size = Some r ->
  r = mkResult [] infinity 0
  \/ (In (Features r) (generateCombinations n size)
      /\ len (Features r) = size
      /\ increasing_in 0 n (Features r)
      /\ fitModel y (Features r) data = Some (MSE r, AIC r)
      /\ PrimFloat.ltb (AIC r) infinity = true).
Proof.
  intros Hsize Hint Hw. unfold worker in Hw.
  destruct (best_recorded y data _ _ _ Hw) as [->|[Hin Hfit]]; [now left|].
  destruct (best_decreases y data _ _ _ Hw) as [->|Hlt]; [now left|].
  right. pose proof (proj1 (generateCombinations_In n size _ Hsize Hint) Hin)
    as [Hlen Hinc].
  auto.
Qed.

End WorkerMore.

Lemma worker_panics_iff_witness :
  @worker Sample.intercept_only Sample.math [10; 12]%float Sample.short_table 5 4
  = None
  /\ exists c, In c (generateCombinations 5 4)
               /\ @fitModel Sample.intercept_only Sample.math [10; 12]%float c
                    Sample.short_table = None.
Proof.
  assert (H : @worker Sample.intercept_only Sample.math [10; 12]%float
                Sample.short_table 5 4 = None) by (vm_compute; reflexivity).
  split; [exact H|].
  exact (proj1 (@worker_panics_iff Sample.intercept_only Sample.math
                  [10; 12]%float Sample.short_table 5 4) H).
Defined.

Lemma worker_result_shape_witness :
  exists r,
    Sample.search 4 = Some r
    /\ (r = mkResult [] infinity 0
        \/ (In (Features r) (generateCombinations 5 4)
            /\ len (Features r) = 4
            /\ increasing_in 0 5 (Features r)
            /\ @fitModel Sample.intercept_only Sample.math Sample.y (Features r)
                 Sample.table = Some (MSE r, AIC r)
            /\ PrimFloat.ltb (AIC r) infinity = true)).
Proof.
  destruct sample_workers as (r4 & r5 & H4 & H5).
  exists r4. split; [exact H4|].
  assert (H1 : 0 <= 4) by lia.
  assert (H2 : GoInt.is_int 4)
    by (unfold GoInt.is_int, GoInt.min_int, GoInt.max_int; lia).
  exact (@worker_result_shape Sample.intercept_only Sample.math
           Sample.y Sample.table 5 4 r4 H1 H2 H4).
Defined.

(** ** The goroutines: progress, termination, crashes, order *)

Lemma loop_range_NoDup (lo hi : Z) : NoDup (loop_range lo hi).
Proof.
  remember (Z.to_nat (hi - lo)) as d eqn:Hd. revert lo Hd.
  induction d as [|d IH]; intros lo Hd.
  - rewrite loop_range_nil by lia. constructor.
  - rewrite loop_range_cons by lia. constructor; [|apply IH; lia].
    rewrite loop_range_In. lia.
Qed.

Section ProtocolMore.

Variable numExplanatory : Z.
Variable search : Z -> option result.

Lemma unsignalled_worker (ws : list (Z * worker_pc)) :
  (count_signalled ws < length ws)%nat ->
  exists l1 size pc l2,
    ws = l1 ++ (size, pc) :: l2 /\ has_signalled pc = false.
Proof.
  induction ws as [|[size pc] ws IH]; [simpl; lia|].
  unfold count_signalled. cbn [filter length snd].
  destruct (has_signalled pc) eqn:Hpc; cbn [length]; intros H.
  - destruct IH as (l1 & size' & pc' & l2 & -> & Hpc').
    + unfold count_signalled. lia.
    + exists ((size, pc) :: l1), size', pc', l2. auto.
  - exists [], size, pc, ws. auto.
Qed.

(** X10: the protocol does not deadlock: as long as [main] has not
    returned and no panic has ended the process, some goroutine can take a
    step. *)
Theorem protocol_progress (s : system) :
  reachable numExplanatory search s ->
  coordinator s <> MFinished -> crashed s = false ->
  exists s', step numExplanatory search s s'.
Proof.
  intros Hreach Hm Hcr.
  destruct (reachable_Inv _ _ _ Hreach) as [Hs _ _ Hc _].
  destruct s as [ws c m cl out cr].
  cbn [workers closer coordinator results_closed printed crashed] in *.
  subst cr. destruct m as [size| |]; [| |congruence].
  - destruct c as [|i|];
      [|destruct Hc as (Hc & _); now destruct (Hc size)
       |destruct Hc as (Hc & _); now destruct (Hc size)].
    destruct Hc as (_ & -> & _).
    destruct (Z_le_gt_dec size numExplanatory) as [Hle|Hgt].
    + eexists. apply step_spawn_worker. exact Hle.
    + eexists. apply step_spawn_closer. lia.
  - destruct c as [|i|].
    + destruct Hc as ((z & Hz) & _). discriminate.
    + destruct Hc as (_ & -> & Hi).
      destruct (Z_lt_le_dec numExplanatory i) as [Hlt|Hle].
      * eexists. apply step_close; [exact Hlt|discriminate].
      * assert (Hlen : length ws = Z.to_nat (numExplanatory - 3)).
        { rewrite <- (length_map fst), Hs. apply sizes_length. }
        destruct (unsignalled_worker ws) as (l1 & size & pc & l2 & -> & Hpc);
          [lia|].
        destruct pc; try discriminate.
        -- destruct (search size) as [r|] eqn:Hr.
           ++ eexists. apply step_compute; [exact Hr|discriminate].
           ++ eexists. apply step_panic; [exact Hr|discriminate].
        -- eexists. apply step_deliver.
        -- eexists. apply step_done; [exact Hle|discriminate].
        -- eexists. apply step_panic_done; [exact Hle|discriminate].
    + destruct Hc as (_ & -> & _). eexists. apply step_finish.
Qed.

Lemma weight_replace (l1 l2 : list (Z * worker_pc)) (size : Z) (pc : worker_pc) :
  list_sum (map (fun w => worker_weight (snd w)) (l1 ++ (size, pc) :: l2))
  = (list_sum (map (fun w => worker_weight (snd w)) l1)
     + worker_weight pc
     + list_sum (map (fun w => worker_weight (snd w)) l2))%nat.
Proof. rewrite map_app, list_sum_app. simpl. lia. Qed.

Lemma step_weight (s s' : system) :
  step numExplanatory search s s' ->
  (weight numExplanatory s' < weight numExplanatory s)%nat.
Proof.
  intros Hstep. destruct Hstep; unfold weight;
    cbn [workers closer coordinator results_closed printed crashed
         main_weight closer_weight];
    rewrite ?weight_replace; cbn [worker_weight]; try lia.
  cbn [map]. change (list_sum []) with 0%nat.
  replace (Z.to_nat (numExplanatory + 1 - size))
    with (S (Z.to_nat (numExplanatory + 1 - (size + 1)))) by lia.
  lia.
Qed.

Lemma steps_weight (n : nat) (s s' : system) :
  steps numExplanatory search n s s' ->
  (n + weight numExplanatory s' <= weight numExplanatory s)%nat.
Proof.
  induction 1 as [s|n s s1 s2 Hstep _ IH]; [lia|].
  apply step_weight in Hstep. lia.
Qed.

(** X11: the protocol terminates: every step uses up some of a finite
    budget, so no run from the start is longer than five steps per size
    plus five. *)
Theorem protocol_terminates (n : nat) (s : system) :
  steps numExplanatory search n init s ->
  (n <= 5 * length (sizes numExplanatory) + 5)%nat.
Proof.
  intros H. apply steps_weight in H. rewrite sizes_length.
  unfold weight, init in H.
  cbn [workers closer coordinator results_closed printed crashed
       main_weight closer_weight map] in H.
  change (list_sum []) with 0%nat in H.
  replace (numExplanatory + 1 - 4) with (numExplanatory - 3) in H by lia.
  lia.
Qed.

Lemma worker_sizes (s : system) :
  Inv numExplanatory search s -> incl (map fst (workers s)) (sizes numExplanatory).
Proof.
  intros [Hs _ _ _ _]. destruct (coordinator s) as [z| |];
    [|rewrite Hs; apply incl_refl|rewrite Hs; apply incl_refl].
  destruct Hs as (H4 & Hz & ->). intros x Hx. unfold sizes.
  apply loop_range_In in Hx. apply loop_range_In. lia.
Qed.

Lemma crash_cause (s : system) :
  reachable numExplanatory search s -> crashed s = true ->
  exists size, In size (sizes numExplanatory) /\ search size = None.
Proof.
  induction 1 as [|s s' Hreach IH Hstep]; [discriminate|].
  pose proof (reachable_Inv _ _ _ Hreach) as HI.
  destruct Hstep;
    cbn [workers closer coordinator results_closed printed crashed] in *;
    try discriminate; intros _.
  - (* send on a closed channel *)
    exfalso.
    destruct (closed_all_signalled _ _ _ HI eq_refl) as [_ Hall].
    cbn [workers] in Hall. apply Forall_app in Hall. destruct Hall as [_ Hall].
    inversion Hall as [|? ? Hsig _]. discriminate.
  - (* the panic of a worker *)
    exists size. split.
    + apply (worker_sizes _ HI). cbn [workers]. rewrite map_app.
      apply in_or_app. right. now left.
    + pose proof (pc_ok_at _ _ _ _ (inv_pcs _ _ _ HI)) as Hok. exact Hok.
Qed.


(** *** Every order of arrival *)

Lemma all_spawned :
  reachable numExplanatory search (served numExplanatory search []).
Proof.
  pose proof (spawn_all numExplanatory search
                (length (sizes numExplanatory))) as Hspawn.
  rewrite sizes_upto in Hspawn.
  eapply reachable_step.
  - apply Hspawn. rewrite sizes_length. lia.
  - unfold served. cbn [existsb flat_map len length Z.of_nat].
    apply step_spawn_closer. rewrite sizes_length. lia.
Qed.

Lemma mark_other (fin : list Z) (sz : Z) (l : list Z) :
  ~ In sz l ->
  map (fun size => (size, if existsb (Z.eqb size) (fin ++ [sz])
                          then WExited else WRunning)) l
  = map (fun size => (size, if existsb (Z.eqb size) fin
                            then WExited else WRunning)) l.
Proof.
  intros Hnot. apply map_ext_in. intros x Hx.
  rewrite existsb_app. cbn [existsb].
  destruct (Z.eqb_spec x sz) as [->|_]; [contradiction|].
  now rewrite !orb_false_r.
Qed.

Lemma serve_one (fin : list Z) (sz : Z) (r : result) :
  NoDup (fin ++ [sz]) -> incl (fin ++ [sz]) (sizes numExplanatory) ->
  search sz = Some r ->
  reachable numExplanatory search (served numExplanatory search fin) ->
  reachable numExplanatory search (served numExplanatory search (fin ++ [sz])).
Proof.
  intros Hnd Hincl Hr Hreach.
  assert (Hin : In sz (sizes numExplanatory))
    by (apply Hincl, in_or_app; right; now left).
  assert (Hfin : ~ In sz fin).
  { apply NoDup_remove_2 in Hnd. rewrite app_nil_r in Hnd. exact Hnd. }
  assert (Hle : 4 + len fin <= numExplanatory).
  { pose proof (NoDup_incl_length Hnd Hincl) as Hlen.
    rewrite length_app, sizes_length in Hlen. cbn [length] in Hlen.
    unfold len. clear - Hlen. lia. }
  pose proof (loop_range_NoDup 4 (numExplanatory + 1)) as Hsizes.
  fold (sizes numExplanatory) in Hsizes.
  destruct (in_split _ _ Hin) as (l1 & l2 & Hsplit).
  rewrite Hsplit in Hsizes.
  pose proof (NoDup_remove_2 _ _ _ Hsizes) as Hnot.
  assert (Hfalse : existsb (Z.eqb sz) fin = false).
  { destruct (existsb (Z.eqb sz) fin) eqn:E; [|reflexivity].
    apply existsb_exists in E. destruct E as (x & Hx & Heq).
    apply Z.eqb_eq in Heq. now subst x. }
  assert (Htrue : existsb (Z.eqb sz) (fin ++ [sz]) = true).
  { rewrite existsb_app. cbn [existsb]. rewrite Z.eqb_refl. now rewrite orb_true_r. }
  unfold served in *. rewrite Hsplit in *.
  rewrite map_app in *. cbn [map] in *. rewrite Hfalse in Hreach. rewrite Htrue.
  rewrite !mark_other
    by (intros H; apply Hnot, in_or_app; (now left) || (now right)).
  rewrite flat_map_app. cbn [flat_map]. rewrite Hr, app_nil_r.
  replace (4 + len (fin ++ [sz])) with (4 + len fin + 1)
    by (unfold len; rewrite length_app; cbn [length]; lia).
  eapply reachable_step; [|apply step_done; [exact Hle|discriminate]].
  eapply reachable_step; [|apply step_deliver].
  eapply reachable_step; [|apply step_compute; [exact Hr|discriminate]].
  exact Hreach.
Qed.

Lemma serve_all (todo : list Z) :
  forall fin,
    NoDup (fin ++ todo) -> incl (fin ++ todo) (sizes numExplanatory) ->
    (forall size, In size todo -> search size <> None) ->
    reachable numExplanatory search (served numExplanatory search fin) ->
    reachable numExplanatory search (served numExplanatory search (fin ++ todo)).
Proof.
  induction todo as [|sz todo IH]; intros fin Hnd Hincl Hsome Hreach.
  - now rewrite app_nil_r.
  - replace (fin ++ sz :: todo) with ((fin ++ [sz]) ++ todo) in *
      by (now rewrite <- app_assoc).
    destruct (search sz) as [r|] eqn:Hr;
      [|now destruct (Hsome sz (or_introl eq_refl))].
    apply IH; try assumption.
    + intros size Hin. apply Hsome. now right.
    + apply (serve_one fin sz r); try assumption.
      * apply (NoDup_app_remove_r _ _ Hnd).
      * intros x Hx. apply Hincl, in_or_app. now left.
Qed.

(** X13: the order of the report is not determined by the program: when
    no worker panics, every order of the sizes is the order in which some
    complete run prints their results. *)
Theorem every_order_occurs (order : list Z) :
  (forall size, In size (sizes numExplanatory) -> search size <> None) ->
  Permutation order (sizes numExplanatory) ->
  exists s,
    reachable numExplanatory search s
    /\ coordinator s = MFinished
    /\ printed s
       = flat_map (fun size => match search size with Some r => [r] | None => [] end)
                  order.
Proof.
  intros Hsome Hperm.
  assert (Hnd : NoDup order).
  { apply (Permutation_NoDup (Permutation_sym Hperm)). apply loop_range_NoDup. }
  assert (Hincl : incl order (sizes numExplanatory)).
  { intros x Hx. exact (Permutation_in _ Hperm Hx). }
  pose proof (serve_all order [] Hnd Hincl) as Hrun. cbn [app] in Hrun.
  assert (Hreach : reachable numExplanatory search
                     (served numExplanatory search order)).
  { apply Hrun; [|apply all_spawned].
    intros size Hin. apply Hsome, Hincl, Hin. }
  unfold served in Hreach.
  eexists. split.
  - eapply reachable_step; [|apply step_finish].
    eapply reachable_step; [exact Hreach|].
    apply step_close; [|discriminate].
    unfold len. rewrite (Permutation_length Hperm), sizes_length. lia.
  - split; reflexivity.
Qed.

(** X14: the smallest size is 4: with fewer than four explanatory columns
    no worker is ever started and nothing is ever printed, and the program
    still ends. *)
Theorem nothing_below_four (s : system) :
  numExplanatory < 4 ->
  reachable numExplanatory search s ->
  workers s = [] /\ printed s = []
  /\ exists s', reachable numExplanatory search s' /\ coordinator s' = MFinished.
Proof.
  intros Hlt Hreach. pose proof (reachable_Inv _ _ _ Hreach) as HI.
  assert (Hsizes : sizes numExplanatory = [])
    by (unfold sizes; apply loop_range_nil; lia).
  assert (Hws : workers s = []).
  { pose proof (worker_sizes s HI) as Hincl. rewrite Hsizes in Hincl.
    destruct (workers s) as [|w ws]; [reflexivity|].
    destruct (Hincl (fst w) (or_introl eq_refl)). }
  split; [exact Hws|]. split.
  - pose proof (inv_printed _ _ _ HI) as Hperm. rewrite Hws in Hperm.
    apply Permutation_sym, Permutation_nil in Hperm. exact Hperm.
  - destruct (run_completes numExplanatory search) as (s' & Hr & Hf & _).
    + rewrite Hsizes. intros size [].
    + eauto.
Qed.

End ProtocolMore.

(** ** The start of [main] *)

Section StartupProperties.

Variable ParseFloat : string -> float64 * error.

Lemma parse_values_Started (values : list string) :
  forall floats row,
    parse_values ParseFloat values floats = Started row
    <-> exists vs, row = floats ++ vs /\ Forall2 (parses ParseFloat) values vs.
Proof.
  unfold parses.
  induction values as [|value values IH]; intros floats row; simpl.
  - split.
    + intros H. inversion H. exists []. split; [now rewrite app_nil_r|constructor].
    + intros (vs & -> & H). inversion H. now rewrite app_nil_r.
  - destruct (ParseFloat value) as [val [err|]] eqn:Hp.
    + split; [discriminate|]. intros (vs & _ & H).
      inversion H as [|? v ? ? Hv _]; subst. rewrite Hp in Hv. discriminate.
    + rewrite IH. split.
      * intros (vs & -> & H). exists (val :: vs). rewrite <- app_assoc.
        split; [reflexivity|]. constructor; [exact Hp|exact H].
      * intros (vs & -> & H). inversion H as [|? v ? vs' Hv Hvs]; subst.
        rewrite Hp in Hv. inversion Hv; subst v. exists vs'.
        rewrite <- app_assoc. auto.
Qed.

Lemma parse_record_Started (record : list string) (row : list float64) :
  parse_record ParseFloat record = Started row <-> row_of ParseFloat record row.
Proof.
  unfold parse_record, row_of. destruct record as [|first values].
  - split; [discriminate|]. intros (f & v & H & _). discriminate.
  - rewrite parse_values_Started. split.
    + intros (vs & -> & H). exists first, values. auto.
    + intros (f & v & Heq & H). inversion Heq; subst. exists row. auto.
Qed.

Lemma parse_loop_Started (records : list (list string)) :
  forall data0 data,
    parse_loop ParseFloat records data0 = Started data
    <-> exists rows, data = data0 ++ rows /\ Forall2 (row_of ParseFloat) records rows.
Proof.
  induction records as [|record records IH]; intros data0 data; simpl.
  - split.
    + intros H. inversion H. exists []. split; [now rewrite app_nil_r|constructor].
    + intros (rows & -> & H). inversion H. now rewrite app_nil_r.
  - destruct (parse_record ParseFloat record) as [floats|msg|] eqn:Hrec.
    + apply parse_record_Started in Hrec. rewrite IH. split.
      * intros (rows & -> & H). exists (floats :: rows). rewrite <- app_assoc.
        split; [reflexivity|]. now constructor.
      * intros (rows & -> & H). inversion H as [|? row ? rows' Hrow Hrows]; subst.
        assert (row = floats).
        { destruct Hrec as (f1 & v1 & E1 & H1), Hrow as (f2 & v2 & E2 & H2).
          rewrite E1 in E2. inversion E2; subst. clear - H1 H2.
          revert floats H1. induction H2 as [|x v vs row Hv _ IH];
            intros floats H1; inversion H1 as [|? v' ? fl Hv' Hfl]; subst;
            [reflexivity|].
          unfold parses in *. rewrite Hv in Hv'. inversion Hv'; subst.
          f_equal. now apply IH. }
        subst row. exists rows'. rewrite <- app_assoc. auto.
    + split; [discriminate|]. intros (rows & _ & H).
      inversion H as [|? row ? ? Hrow _]; subst.
      apply parse_record_Started in Hrow. rewrite Hrow in Hrec. discriminate.
    + split; [discriminate|]. intros (rows & _ & H).
      inversion H as [|? row ? ? Hrow _]; subst.
      apply parse_record_Started in Hrow. rewrite Hrow in Hrec. discriminate.
Qed.

(** X15: the table is built exactly when there is at least one record,
    every record has a first field, and [ParseFloat] accepts every other
    field; it then has one row per record, the row holding the values of
    the record's fields after the first, in order. *)
Theorem parse_records_Started (records : list (list string))
    (data : list (list float64)) :
  parse_records ParseFloat records = Started data
  <-> records <> [] /\ Forall2 (row_of ParseFloat) records data.
Proof.
  unfold parse_records. destruct records as [|record records].
  - cbn. split; [discriminate|]. intros [H _]. now destruct H.
  - replace (len (record :: records) =? 0) with false
      by (symmetry; apply Z.eqb_neq; unfold len; cbn [length]; lia).
    rewrite parse_loop_Started. split.
    + intros (rows & -> & H). split; [discriminate|exact H].
    + intros [_ H]. exists data. auto.
Qed.

Lemma parse_values_outcome (values : list string) :
  forall floats,
    (exists row, parse_values ParseFloat values floats = Started row)
    \/ ((exists msg, parse_values ParseFloat values floats = Fatal msg)
        /\ Exists (fun value => snd (ParseFloat value) <> None) values).
Proof.
  induction values as [|value values IH]; intros floats; simpl; [eauto|].
  destruct (ParseFloat value) as [val [err|]] eqn:Hp.
  - right. split; [eauto|]. constructor. rewrite Hp. discriminate.
  - destruct (IH (floats ++ [val])) as [H|[H He]]; [now left|].
    right. split; [exact H|]. now constructor 2.
Qed.

Lemma bad_field_not_Started (values : list string) (floats row : list float64) :
  Exists (fun value => snd (ParseFloat value) <> None) values ->
  parse_values ParseFloat values floats <> Started row.
Proof.
  intros He H. apply parse_values_Started in H. destruct H as (vs & _ & H).
  clear - He H. induction H as [|value v values vs Hv _ IH]; inversion He; subst.
  - unfold parses in Hv. rewrite Hv in *. cbn in *. congruence.
  - auto.
Qed.

Lemma parse_loop_outcome (records : list (list string)) :
  Forall (fun record => record <> []) records ->
  forall data0,
    parse_loop ParseFloat records data0 <> Panicked
    /\ ((exists msg, parse_loop ParseFloat records data0 = Fatal msg)
        <-> Exists (has_bad_field ParseFloat) records).
Proof.
  induction 1 as [|record records Hrec _ IH]; intros data0; simpl.
  - split; [discriminate|]. split.
    + intros (msg & H). discriminate.
    + intros H. inversion H.
  - destruct record as [|first values]; [congruence|]. cbn [parse_record].
    destruct (parse_values_outcome values []) as [(row & Hrow)|[(msg & Hmsg) Hbad]].
    + rewrite Hrow. destruct (IH (data0 ++ [row])) as [Hnp Hiff].
      split; [exact Hnp|]. rewrite Hiff. split; [now constructor 2|].
      intros H. inversion H as [? ? Hb|? ? Hb]; subst; [|exact Hb].
      unfold has_bad_field in Hb. cbn [tl] in Hb.
      now destruct (bad_field_not_Started values [] row Hb).
    + rewrite Hmsg. split; [discriminate|]. split; [|eauto].
      intros _. constructor. exact Hbad.
Qed.

(** X16: when every record has a first field the start never panics, and
    it stops with a fatal message exactly when there is no record or some
    field after the first does not parse. *)
Theorem parse_records_Fatal (records : list (list string)) :
  Forall (fun record => record <> []) records ->
  parse_records ParseFloat records <> Panicked
  /\ ((exists msg, parse_records ParseFloat records = Fatal msg)
      <-> records = [] \/ Exists (has_bad_field ParseFloat) records).
Proof.
  intros Hne. unfold parse_records. destruct records as [|record records].
  - cbn. split; [discriminate|]. split; [now left|eauto].
  - replace (len (record :: records) =? 0) with false
      by (symmetry; apply Z.eqb_neq; unfold len; cbn [length]; lia).
    destruct (parse_loop_outcome _ Hne []) as [Hnp Hiff].
    split; [exact Hnp|]. rewrite Hiff. split; [now right|].
    intros [H|H]; [discriminate|exact H].
Qed.

Lemma parse_loop_total (records : list (list string)) :
  Forall (fun record => record <> []) records ->
  ~ Exists (has_bad_field ParseFloat) records ->
  forall data0, exists data, parse_loop ParseFloat records data0 = Started data.
Proof.
  intros Hne Hgood data0.
  destruct (parse_loop_outcome records Hne data0) as [Hnp Hiff].
  destruct (parse_loop ParseFloat records data0) as [data|msg|] eqn:E;
    [eauto| |congruence].
  destruct Hgood. apply Hiff. eauto.
Qed.

Lemma row_of_length (record : list string) (row : list float64) :
  row_of ParseFloat record row -> len row = len record - 1.
Proof.
  intros (first & values & -> & H). apply Forall2_length in H.
  unfold len. cbn [length]. lia.
Qed.

End StartupProperties.

Lemma feature_column_complete (data : list (list float64)) (idx : Z) :
  forall x0 x,
    Forall2 (fun row v => at_index row idx = Some v) data x ->
    foldM (fun x row => v <- at_index row idx ;; Some (x ++ [v])) data x0
    = Some (x0 ++ x).
Proof.
  induction data as [|row data IH]; intros x0 x H; inversion H; subst; simpl.
  - now rewrite app_nil_r.
  - match goal with Hv : at_index row idx = Some _ |- _ => rewrite Hv end.
    simpl. rewrite IH with (x := l') by assumption.
    now rewrite <- app_assoc.
Qed.

Lemma prepare_sound (data : list (list float64)) (y : list float64)
    (numExplanatory : Z) :
  prepare data = Some (y, numExplanatory) ->
  exists row0 rest,
    data = row0 :: rest
    /\ numExplanatory = len row0 - 1
    /\ Forall2 (fun row v => at_index row numExplanatory = Some v) data y.
Proof.
  unfold prepare. destruct data as [|row0 rest]; [discriminate|].
  change (at_index (row0 :: rest) 0) with (Some row0). cbn [bind].
  intros H. apply bind_Some in H. destruct H as (y' & Hy & H).
  inversion H; subst y' numExplanatory.
  exists row0, rest. split; [reflexivity|]. split; [reflexivity|].
  exact (feature_column_spec _ _ _ Hy).
Qed.

Lemma prepare_complete (row0 : list float64) (rest : list (list float64))
    (y : list float64) :
  Forall2 (fun row v => at_index row (len row0 - 1) = Some v) (row0 :: rest) y ->
  prepare (row0 :: rest) = Some (y, len row0 - 1).
Proof.
  intros H. unfold prepare.
  change (at_index (row0 :: rest) 0) with (Some row0). cbn [bind].
  rewrite (feature_column_complete _ _ [] y H). reflexivity.
Qed.

(** X17: the response column and the number of explanatory columns are
    obtained exactly when the table has a first row and every row has an
    entry at the index of the last entry of the first row; [y] then holds
    these entries, one per row. *)
Theorem prepare_Some_iff (data : list (list float64)) (y : list float64)
    (numExplanatory : Z) :
  prepare data = Some (y, numExplanatory)
  <-> exists row0 rest,
        data = row0 :: rest
        /\ numExplanatory = len row0 - 1
        /\ Forall2 (fun row v => at_index row numExplanatory = Some v) data y.
Proof.
  split; [apply prepare_sound|].
  intros (row0 & rest & -> & -> & H). now apply prepare_complete.
Qed.

Section StartMain.

Variable ParseFloat : string -> float64 * error.

Lemma at_index_column (data : list (list float64)) (idx : Z) :
  Forall (fun row => 0 <= idx < len row) data ->
  exists x, Forall2 (fun row v => at_index row idx = Some v) data x.
Proof.
  induction 1 as [|row data Hrow _ (x & IH)]; [exists []; constructor|].
  destruct (at_index_total row idx Hrow) as (v & Hv).
  exists (v :: x). now constructor.
Qed.

(** X18: when the reader returned at least one record, all records have
    the same number [f >= 2] of fields and every field after the first
    parses, [main] reaches the goroutines with a table of one row of
    [f - 1] values per record, the last value of each row as response, and
    [f - 2] explanatory columns. *)
Theorem start_main_Started (records : list (list string)) (f : Z) :
  records <> [] -> 2 <= f ->
  Forall (fun record => len record = f) records ->
  ~ Exists (has_bad_field ParseFloat) records ->
  exists data y,
    start_main ParseFloat records = Started (data, y, f - 2)
    /\ Forall2 (row_of ParseFloat) records data
    /\ Forall (fun row => len row = f - 1) data
    /\ Forall2 (fun row v => at_index row (f - 2) = Some v) data y.
Proof.
  intros Hne Hf Hlen Hgood.
  assert (Hfields : Forall (fun record : list string => record <> []) records).
  { revert Hlen. apply Forall_impl. intros record Hr ->. unfold len in Hr.
    simpl in Hr. lia. }
  destruct (parse_loop_total ParseFloat records Hfields Hgood []) as (data & Hdata).
  assert (Hparse : parse_records ParseFloat records = Started data).
  { unfold parse_records. destruct records as [|r l]; [congruence|].
    replace (len (r :: l) =? 0) with false
      by (symmetry; apply Z.eqb_neq; unfold len; cbn [length]; lia).
    exact Hdata. }
  assert (Hrows : Forall2 (row_of ParseFloat) records data).
  { apply parse_loop_Started in Hdata. destruct Hdata as (rows & -> & H).
    exact H. }
  assert (Hshape : Forall (fun row => len row = f - 1) data).
  { clear - Hrows Hlen. induction Hrows as [|record row records data Hr _ IH];
      [constructor|].
    inversion Hlen as [|? ? Hrec Hrest]; subst. constructor; [|now apply IH].
    rewrite (row_of_length ParseFloat _ _ Hr). lia. }
  destruct (at_index_column data (f - 2)) as (y & Hy).
  { revert Hshape. apply Forall_impl. intros row Hr. lia. }
  exists data, y. split; [|auto].
  unfold start_main. rewrite Hparse.
  assert (Hprep : prepare data = Some (y, f - 2)).
  { destruct data as [|row0 rest].
    - inversion Hrows; subst. congruence.
    - assert (Hrow0 : len row0 - 1 = f - 2) by (inversion Hshape; subst; lia).
      rewrite <- Hrow0 in *. now apply prepare_complete. }
  now rewrite Hprep.
Qed.

End StartMain.

(** ** From the table to the end of the run *)

Lemma increasing_in_loop_range (lo hi hi' : Z) :
  hi <= hi' -> increasing_in lo hi' (loop_range lo hi).
Proof.
  intros Hle. remember (Z.to_nat (hi - lo)) as d eqn:Hd. revert lo Hd.
  induction d as [|d IH]; intros lo Hd.
  - rewrite loop_range_nil by lia. exact I.
  - rewrite loop_range_cons by lia. simpl. split; [lia|]. apply IH. lia.
Qed.

Section EndToEnd.

Context {R : Regression} {M : GoMath}.
Variables (data : list (list float64)) (y : list float64) (numExplanatory : Z).
Hypothesis Hprep : prepare data = Some (y, numExplanatory).
Hypothesis Hrect : Forall (fun row => len row = numExplanatory + 1) data.
Hypothesis Hint : numExplanatory <= GoInt.max_int.

Lemma y_length : length y = length data.
Proof.
  destruct (prepare_sound _ _ _ Hprep) as (row0 & rest & _ & _ & H).
  symmetry. exact (Forall2_length H).
Qed.

Lemma size_is_int (size : Z) :
  In size (sizes numExplanatory) ->
  4 <= size <= numExplanatory /\ GoInt.is_int size.
Proof.
  intros H. apply loop_range_In in H.
  unfold GoInt.is_int, GoInt.min_int, GoInt.max_int in *. lia.
Qed.

Lemma subset_columns (size : Z) (c : list Z) :
  In size (sizes numExplanatory) ->
  In c (generateCombinations numExplanatory size) ->
  Forall (fun idx => Forall (fun row : list float64 => 0 <= idx < len row) data) c
  /\ len c = size.
Proof.
  intros Hsize Hc. destruct (size_is_int size Hsize) as [Hs Hi].
  apply generateCombinations_In in Hc; [|lia|assumption].
  destruct Hc as [Hlen Hinc]. split; [|exact Hlen].
  apply increasing_in_bounds in Hinc. revert Hinc. apply Forall_impl.
  intros idx Hidx. revert Hrect. apply Forall_impl. intros row Hrow. lia.
Qed.

(** X19: on a rectangular table with at least as many rows as explanatory
    columns no worker panics, the process is never killed, and there is a
    run that ends with the results of all sizes printed. *)
Theorem enough_rows_no_panic :
  numExplanatory <= len data ->
  (forall size, In size (sizes numExplanatory) ->
                worker y data numExplanatory size <> None)
  /\ (forall s, program_reachable data s -> crashed s = false)
  /\ (exists s, program_reachable data s /\ coordinator s = MFinished
                /\ printed s
                   = per_size_results numExplanatory (worker y data numExplanatory)).
Proof.
  intros Hrows.
  assert (Hsome : forall size, In size (sizes numExplanatory) ->
                               worker y data numExplanatory size <> None).
  { intros size Hsize Hnone. unfold worker in Hnone.
    apply foldM_consider_panics in Hnone. destruct Hnone as (c & Hc & Hfit).
    destruct (subset_columns size c Hsize Hc) as [Hcols Hlen].
    destruct (size_is_int size Hsize) as [Hs _].
    destruct (fitModel_total y c data Hcols) as (mse & aic & Hsome).
    - rewrite y_length. unfold len in *. lia.
    - congruence. }
  split; [exact Hsome|]. split.
  - intros s Hreach. unfold program_reachable in Hreach. rewrite Hprep in Hreach.
    destruct (crashed s) eqn:Hcr; [|reflexivity].
    destruct (crash_cause _ _ s Hreach Hcr) as (size & Hsize & Hnone).
    now destruct (Hsome size Hsize).
  - destruct (run_completes _ _ Hsome) as (s & Hreach & Hfin & Hout).
    exists s. unfold program_reachable. rewrite Hprep. auto.
Qed.

(** X20: on a table with fewer rows than a searched size the worker for
    that size panics, whatever the shape of the rows, and there is a run in
    which this kills the process. *)
Theorem too_few_rows_panic (size : Z) :
  In size (sizes numExplanatory) -> len data < size ->
  worker y data numExplanatory size = None
  /\ exists s, program_reachable data s /\ crashed s = true.
Proof.
  intros Hsize Hrows. destruct (size_is_int size Hsize) as [Hs Hi].
  assert (Hnone : worker y data numExplanatory size = None).
  { unfold worker. apply foldM_consider_panics.
    exists (loop_range 0 size). split.
    - apply generateCombinations_In; [lia|assumption|]. split.
      + unfold len. rewrite loop_range_length. lia.
      + apply increasing_in_loop_range. lia.
    - destruct (fitModel y (loop_range 0 size) data) as [[mse aic]|] eqn:Hfit;
        [exfalso|reflexivity].
      apply fitModel_in_range in Hfit. destruct Hfit as [_ Hlen].
      rewrite loop_range_length, y_length in Hlen. unfold len in Hrows. lia. }
  split; [exact Hnone|].
  pose proof (all_spawned numExplanatory (worker y data numExplanatory)) as Hreach.
  unfold served in Hreach.
  destruct (in_split _ _ Hsize) as (l1 & l2 & Hsplit). rewrite Hsplit in Hreach.
  rewrite map_app in Hreach. cbn [map existsb flat_map len length Z.of_nat] in Hreach.
  assert (Hm : MReceiving <> MFinished) by discriminate.
  assert (Hi4 : 4 + 0 <= numExplanatory) by lia.
  pose proof (reachable_step _ _ _ _ Hreach
                (step_panic _ _ _ _ _ _ _ _ _ Hnone Hm)) as H1.
  pose proof (reachable_step _ _ _ _ H1
                (step_panic_done _ _ _ _ _ _ _ _ _ Hi4 Hm)) as H2.
  pose proof (reachable_step _ _ _ _ H2
                (step_crash _ _ _ _ _ _ _ _ _ Hm)) as H3.
  eexists. split.
  - unfold program_reachable. rewrite Hprep. exact H3.
  - reflexivity.
Qed.

End EndToEnd.

(** ** Instances on the sample data *)

Lemma protocol_progress_witness :
  reachable 5 Sample.search init
  /\ coordinator init <> MFinished
  /\ crashed init = false
  /\ exists s', step 5 Sample.search init s'.
Proof.
  assert (Hm : coordinator init <> MFinished) by discriminate.
  split; [apply reachable_init|]. split; [exact Hm|]. split; [reflexivity|].
  exact (protocol_progress 5 Sample.search init
           (reachable_init 5 Sample.search) Hm eq_refl).
Defined.

Lemma protocol_terminates_witness :
  steps 5 Sample.search 1 init
    (mkSystem [(4, WRunning)] CNotStarted (MSpawning (4 + 1)) false [] false)
  /\ (1 <= 5 * length (sizes 5) + 5)%nat.
Proof.
  assert (Hle : 4 <= 5) by lia.
  assert (Hrun : steps 5 Sample.search 1 init
                   (mkSystem [(4, WRunning)] CNotStarted (MSpawning (4 + 1))
                             false [] false)).
  { eapply steps_S; [|apply steps_O].
    exact (step_spawn_worker 5 Sample.search [] 4 [] Hle). }
  split; [exact Hrun|].
  exact (protocol_terminates 5 Sample.search 1 _ Hrun).
Defined.




Lemma sample_search_total (size : Z) :
  In size (sizes 5) -> Sample.search size <> None.
Proof.
  destruct sample_workers as (r4 & r5 & H4 & H5).
  intros Hin. unfold sizes in Hin. apply loop_range_In in Hin.
  assert (Hsize : size = 4 \/ size = 5) by lia.
  destruct Hsize as [-> | ->]; congruence.
Qed.

Lemma every_order_occurs_witness :
  Permutation [5; 4] (sizes 5)
  /\ exists s,
       reachable 5 Sample.search s
       /\ coordinator s = MFinished
       /\ printed s
          = flat_map (fun size => match Sample.search size with
                                  | Some r => [r]
                                  | None => []
                                  end) [5; 4].
Proof.
  assert (Hperm : Permutation [5; 4] (sizes 5)) by apply perm_swap.
  split; [exact Hperm|].
  exact (every_order_occurs 5 Sample.search [5; 4] sample_search_total Hperm).
Defined.

Lemma nothing_below_four_witness :
  3 < 4
  /\ reachable 3 Sample.search init
  /\ workers init = [] /\ printed init = []
  /\ exists s', reachable 3 Sample.search s' /\ coordinator s' = MFinished.
Proof.
  assert (Hlt : 3 < 4) by lia.
  split; [exact Hlt|]. split; [apply reachable_init|].
  exact (nothing_below_four 3 Sample.search init Hlt (reachable_init 3 Sample.search)).
Defined.

Lemma parse_records_Fatal_witness :
  Forall (fun record : list string => record <> []) [["a"; "x"]%string]
  /\ parse_records SampleStart.parse_float [["a"; "x"]%string] <> Panicked
  /\ ((exists msg, parse_records SampleStart.parse_float [["a"; "x"]%string]
                   = Fatal msg)
      <-> [["a"; "x"]%string] = []
          \/ Exists (has_bad_field SampleStart.parse_float) [["a"; "x"]%string]).
Proof.
  assert (H : Forall (fun record : list string => record <> [])
                     [["a"; "x"]%string]).
  { constructor; [discriminate|constructor]. }
  split; [exact H|].
  exact (parse_records_Fatal SampleStart.parse_float _ H).
Defined.

Lemma sample_records_parse :
  ~ Exists (has_bad_field SampleStart.parse_float) SampleStart.records.
Proof.
  intros H. unfold SampleStart.records in H.
  repeat (apply Exists_cons in H; destruct H as [H|H]);
    try solve [apply Exists_nil in H; exact H];
    unfold has_bad_field in H; cbn [tl] in H;
    repeat (apply Exists_cons in H; destruct H as [H|H]);
    try solve [apply Exists_nil in H; exact H];
    vm_compute in H; apply H; reflexivity.
Qed.

Lemma sample_records_shape :
  Forall (fun record : list string => len record = 7) SampleStart.records.
Proof. repeat constructor. Qed.

Lemma start_main_Started_witness :
  exists data y,
    start_main SampleStart.parse_float SampleStart.records
    = Started (data, y, 7 - 2)
    /\ Forall2 (row_of SampleStart.parse_float) SampleStart.records data
    /\ Forall (fun row => len row = 7 - 1) data
    /\ Forall2 (fun row v => at_index row (7 - 2) = Some v) data y.
Proof.
  assert (Hne : SampleStart.records <> []) by discriminate.
  assert (Hf : 2 <= 7) by lia.
  exact (start_main_Started SampleStart.parse_float SampleStart.records 7
           Hne Hf sample_records_shape sample_records_parse).
Defined.

Lemma sample_table_shape :
  Forall (fun row : list float64 => len row = 5 + 1) Sample.table.
Proof. repeat constructor. Qed.

Lemma short_prepare :
  prepare Sample.short_table = Some ([10; 12]%float, 5).
Proof. reflexivity. Qed.

Lemma enough_rows_no_panic_witness :
  5 <= len Sample.table
  /\ (forall size, In size (sizes 5) ->
                   @worker Sample.intercept_only Sample.math
                     Sample.y Sample.table 5 size <> None)
  /\ (forall s, @program_reachable Sample.intercept_only Sample.math
                  Sample.table s -> crashed s = false)
  /\ (exists s, @program_reachable Sample.intercept_only Sample.math
                  Sample.table s
                /\ coordinator s = MFinished
                /\ printed s
                   = per_size_results 5
                       (@worker Sample.intercept_only Sample.math
                          Sample.y Sample.table 5)).
Proof.
  assert (Hint : 5 <= GoInt.max_int) by (unfold GoInt.max_int; lia).
  assert (Hrows : 5 <= len Sample.table) by (unfold len; simpl; lia).
  split; [exact Hrows|].
  exact (@enough_rows_no_panic Sample.intercept_only Sample.math
           Sample.table Sample.y 5 sample_prepare sample_table_shape Hint Hrows).
Defined.

Lemma too_few_rows_panic_witness :
  In 4 (sizes 5)
  /\ len Sample.short_table < 4
  /\ @worker Sample.intercept_only Sample.math
       [10; 12]%float Sample.short_table 5 4 = None
  /\ exists s, @program_reachable Sample.intercept_only Sample.math
                 Sample.short_table s
               /\ crashed s = true.
Proof.
  assert (Hint : 5 <= GoInt.max_int) by (unfold GoInt.max_int; lia).
  assert (Hin : In 4 (sizes 5)) by (left; reflexivity).
  assert (Hrows : len Sample.short_table < 4) by (unfold len; simpl; lia).
  split; [exact Hin|]. split; [exact Hrows|].
  exact (@too_few_rows_panic Sample.intercept_only Sample.math
           Sample.short_table [10; 12]%float 5 short_prepare
           Hint 4 Hin Hrows).
Defined.
